(** * tagvalue: the RFC 6376 tag-list parser and the DKIM key checker

    A shallow embedding of [lexer.go] (scanner, [NewTagValue], [NewMap]) and
    of the DKIM key validator ([NewDkimKey]), followed by the properties of
    the specification that were checked against it.

    Go strings are byte sequences: they are modelled by [string], whose
    characters are the 256 values of [ascii].  Go's [int] positions are [Z].
    Go maps are stdpp's [gmap]. *)

From Stdlib Require Import ZArith String Ascii List Bool Lia.
From stdpp Require Import base option gmap strings list.
Import ListNotations.

Open Scope string_scope.
Open Scope list_scope.
Open Scope Z_scope.

(** ** Go strings *)

Module GoString.

(** [len(s)] *)
Definition len (s : string) : Z := Z.of_nat (String.length s).

(** The value of a byte. *)
Definition byteval (c : ascii) : Z := Z.of_N (N_of_ascii c).

(** The bytes of a string, the view the proofs work with. *)
Definition bytes (s : string) : list ascii := list_ascii_of_string s.

(** [s[a:b]]; Go panics unless [0 <= a <= b <= len(s)], the parser only
    slices inside these bounds. *)
Definition slice (s : string) (a b : Z) : string :=
  string_of_list_ascii (take (Z.to_nat (b - a)) (drop (Z.to_nat a) (bytes s))).

(** [s[a:]] *)
Definition slice_from (s : string) (a : Z) : string :=
  string_of_list_ascii (drop (Z.to_nat a) (bytes s)).

(** [s[i]], used below only after a length check. *)
Definition at_ (s : string) (i : nat) : Z :=
  match String.get i s with
  | Some c => byteval c
  | None => 0
  end.

(** [strings.HasPrefix(s, prefix)] *)
Definition HasPrefix (s prefix : string) : bool := String.prefix prefix s.

End GoString.
Import GoString.

(** ** unicode/utf8 *)

Definition rune := Z.

Module utf8.

Definition RuneError : rune := 0xFFFD.
Definition RuneSelf : Z := 0x80.

Definition maskx : Z := 0x3F.
Definition mask2 : Z := 0x1F.
Definition mask3 : Z := 0x0F.
Definition mask4 : Z := 0x07.
Definition locb : Z := 0x80.
Definition hicb : Z := 0xBF.

(** The size recorded in the table [first] for a leading byte: 1 for
    ASCII, 0 for a byte that cannot start a sequence, else 2, 3 or 4. *)
Definition first_size (s0 : Z) : Z :=
  if s0 <? 0x80 then 1
  else if s0 <? 0xC2 then 0
  else if s0 <? 0xE0 then 2
  else if s0 <? 0xF0 then 3
  else if s0 <? 0xF5 then 4
  else 0.

(** The accept range recorded for a leading byte: the bounds on the
    second byte. *)
Definition acceptRange (s0 : Z) : Z * Z :=
  if s0 =? 0xE0 then (0xA0, hicb)
  else if s0 =? 0xED then (locb, 0x9F)
  else if s0 =? 0xF0 then (0x90, hicb)
  else if s0 =? 0xF4 then (locb, 0x8F)
  else (locb, hicb).

(** [utf8.DecodeRuneInString]: the first rune of [s] and its width in
    bytes; [(RuneError, 0)] on the empty string and [(RuneError, 1)] on
    an invalid encoding. *)
Definition DecodeRuneInString (s : string) : rune * Z :=
  let n := len s in
  if n <? 1 then (RuneError, 0) else
  let s0 := at_ s 0 in
  let sz := first_size s0 in
  if sz =? 1 then (s0, 1) else
  if sz =? 0 then (RuneError, 1) else
  let '(lo, hi) := acceptRange s0 in
  if n <? sz then (RuneError, 1) else
  let s1 := at_ s 1 in
  if (s1 <? lo) || (hi <? s1) then (RuneError, 1) else
  if sz <=? 2 then
    (Z.lor (Z.shiftl (Z.land s0 mask2) 6) (Z.land s1 maskx), 2) else
  let s2 := at_ s 2 in
  if (s2 <? locb) || (hicb <? s2) then (RuneError, 1) else
  if sz <=? 3 then
    (Z.lor (Z.lor (Z.shiftl (Z.land s0 mask3) 12)
                  (Z.shiftl (Z.land s1 maskx) 6))
           (Z.land s2 maskx), 3) else
  let s3 := at_ s 3 in
  if (s3 <? locb) || (hicb <? s3) then (RuneError, 1) else
  (Z.lor (Z.lor (Z.lor (Z.shiftl (Z.land s0 mask4) 18)
                       (Z.shiftl (Z.land s1 maskx) 12))
                (Z.shiftl (Z.land s2 maskx) 6))
         (Z.land s3 maskx), 4).

End utf8.

(** ** strings *)

Module strings.

(** The scan behind [strings.IndexRune]: [s] is what is left of the
    string at byte offset [i]; [skip] bytes still belong to the rune
    decoded last. *)
Fixpoint IndexRune_from (i : Z) (skip : nat) (s : string) (r : rune) : Z :=
  match s with
  | EmptyString => -1
  | String _ s' =>
      match skip with
      | S k => IndexRune_from (i + 1) k s' r
      | O =>
          let '(c, w) := utf8.DecodeRuneInString s in
          if c =? r then i
          else IndexRune_from (i + 1) (Z.to_nat w - 1) s' r
      end
  end.

(** [strings.IndexRune(s, r)]: the byte offset of the first rune of [s]
    equal to [r], or -1.  An invalid byte of [s] reads as
    [utf8.RuneError], so that value finds the first invalid byte as in
    Go; [eof] and the other invalid code points are never decoded, so
    they are never found. *)
Definition IndexRune (s : string) (r : rune) : Z := IndexRune_from 0 0 s r.

(** [strings.Split(s, sep)] for a separator of one byte (the validator
    splits on a colon only). *)
Fixpoint Split_acc (cur : string) (s : string) (sep : ascii) : list string :=
  match s with
  | EmptyString => [cur]
  | String c s' =>
      if Ascii.eqb c sep then cur :: Split_acc EmptyString s' sep
      else Split_acc (cur +:+ String c EmptyString) s' sep
  end.

Definition Split (s : string) (sep : ascii) : list string :=
  Split_acc EmptyString s sep.

End strings.

(** ** The scanner *)

Definition eof : rune := -1.

Record lexer := mkLexer {
  input : string;   (* the string being scanned *)
  start : Z;        (* start position of this item *)
  pos : Z;          (* current position in the input *)
  width : Z         (* width of last rune read from input *)
}.

Definition set_width (l : lexer) (w : Z) : lexer :=
  mkLexer (input l) (start l) (pos l) w.

Definition set_pos (l : lexer) (p : Z) : lexer :=
  mkLexer (input l) (start l) p (width l).

(** [next] returns the next rune in the input. *)
Definition next (l : lexer) : rune * lexer :=
  if len (input l) <=? pos l then (eof, set_width l 0)
  else
    let '(r, w) := utf8.DecodeRuneInString (slice_from (input l) (pos l)) in
    (r, mkLexer (input l) (start l) (pos l + w) w).

(** [ignore] skips over the pending input before this point. *)
Definition ignore (l : lexer) : lexer :=
  mkLexer (input l) (pos l) (pos l) (width l).

(** [backup] steps back one rune. *)
Definition backup (l : lexer) : lexer := set_pos l (pos l - width l).

(** [peek] returns but does not consume the next rune. *)
Definition peek (l : lexer) : rune * lexer :=
  let '(r, l1) := next l in (r, backup l1).

(** [accept] consumes the next rune if it is from the valid set. *)
Definition accept (valid : string) (l : lexer) : bool * lexer :=
  let '(r, l1) := next l in
  if 0 <=? strings.IndexRune valid r then (true, l1)
  else (false, backup l1).

(** The loops of the scanner and of the parser are bounded by the length of
    the input: every iteration but the last consumes at least one byte.
    [None] is "the bound was reached", which [NewTagValue_terminates]
    excludes. *)
Definition bound (l : lexer) : nat := S (String.length (input l)).

Fixpoint acceptRun_loop (fuel : nat) (valid : string) (l : lexer)
  : option lexer :=
  match fuel with
  | O => None
  | S fuel' =>
      let '(r, l1) := next l in
      if 0 <=? strings.IndexRune valid r then acceptRun_loop fuel' valid l1
      else Some l1
  end.

(** [acceptRun] consumes a run of runes from the valid set. *)
Definition acceptRun (valid : string) (l : lexer) : option lexer :=
  backup <$> acceptRun_loop (bound l) valid l.

Definition tagChars : string :=
  "abcdefghijklmnopqrstuvwxyzABCDEFGHIJKLMNOPQRSTUVWXYZ0123456789_".

(** [acceptTagRun] consumes alphamerics plus underscore. *)
Definition acceptTagRun (l : lexer) : option lexer := acceptRun tagChars l.

(** ** Errors and results *)

Record ParseError := mkParseError {
  Message : string;
  Pos : Z
}.

(** The values of Go's [error] interface that the package produces: a
    [ParseError], or the plain error of [errors.New]. *)
Inductive error :=
| ParseError_ (e : ParseError)
| errors_New (text : string).

(** [err.Error()] *)
Definition Error (e : error) : string :=
  match e with
  | ParseError_ e => Message e
  | errors_New text => text
  end.

(** What a call yields: a value, an error, or [Unfinished] when a loop
    reached its bound. *)
Inductive outcome (A : Type) :=
| Ret (a : A)
| Err (e : error)
| Unfinished.
Arguments Ret {A} a.
Arguments Err {A} e.
Arguments Unfinished {A}.

Definition bind {A B} (k : A -> outcome B) (x : outcome A) : outcome B :=
  match x with
  | Ret a => k a
  | Err e => Err e
  | Unfinished => Unfinished
  end.

Definition of_loop {A} (x : option A) : outcome A :=
  match x with
  | Some a => Ret a
  | None => Unfinished
  end.

#[global] Instance outcome_bind : MBind outcome := @bind.
#[global] Instance outcome_ret : MRet outcome := @Ret.

(** ** Runes and character sets of the grammar *)

Definition rune_of (c : ascii) : rune := byteval c.

Definition HTAB : ascii := "009"%char.
Definition CR : ascii := "013"%char.
Definition LF : ascii := "010"%char.

(** [" \t"] *)
Definition WSP : string := String " " (String HTAB EmptyString).

(** ["\r\n"] *)
Definition CRLF : string := String CR (String LF EmptyString).

(** ** The tag-list parser *)

(** [acceptOptionalFws] consumes an optional folding whitespace.  On the
    malformed fold the source backs up once more before it returns the
    error; the lexer is not read again after that. *)
Definition acceptOptionalFws (l : lexer) : outcome lexer :=
  l ← of_loop (acceptRun WSP l);
  if HasPrefix (slice_from (input l) (pos l)) CRLF then
    let l := set_pos l (pos l + 2) in
    let '(ok, l) := accept WSP l in
    if ok then of_loop (acceptRun WSP l)
    else Err (errors_New "malformed folding whitespace")
  else Ret l.

Definition skipOptionalFws (l : lexer) : outcome lexer :=
  l ← acceptOptionalFws l;
  Ret (ignore l).

Record Item := mkItem {
  Tag : string;
  Value : string;
  TagPos : Z;
  ValuePos : Z
}.

(** [r != ';' && r >= '!' && r <= '~'] *)
Definition isValueChar (r : rune) : bool :=
  negb (r =? rune_of ";") && (rune_of "!" <=? r) && (r <=? rune_of "~").

(** [(r < 'a' || r > 'z') && (r < 'A' || r > 'Z')] *)
Definition notAlpha (r : rune) : bool :=
  ((r <? rune_of "a") || (rune_of "z" <? r))
  && ((r <? rune_of "A") || (rune_of "Z" <? r)).

(** The loop labelled [value] of [NewTagValue]: its inner loop runs until
    the value is complete, the item is appended, and [break value] leaves
    both loops. *)
Fixpoint value_loop (fuel : nat) (l : lexer) (item : Item) (items : list Item)
  : outcome (lexer * list Item) :=
  match fuel with
  | O => Unfinished
  | S fuel' =>
      let '(r, l) := next l in
      if isValueChar r then value_loop fuel' l item items
      else
        let l := backup l in
        let whitespacePos := pos l in
        l ← acceptOptionalFws l;
        let '(r, l) := next l in
        if (r =? eof) || (r =? rune_of ";") then
          let item :=
            mkItem (Tag item) (slice (input l) (start l) whitespacePos)
                   (TagPos item) (start l) in
          Ret (l, items ++ [item])
        else value_loop fuel' l item items
  end.

(** The outer loop of [NewTagValue]: one tag-spec per iteration. *)
Fixpoint NewTagValue_loop (fuel : nat) (l : lexer) (items : list Item)
  : outcome (list Item) :=
  match fuel with
  | O => Unfinished
  | S fuel' =>
      l ← skipOptionalFws l;
      (* tag *)
      let '(r, l) := next l in
      if r =? eof then Ret items
      else if notAlpha r then
        Err (ParseError_ (mkParseError "expecting alpha character in tag" (pos l)))
      else
        l ← of_loop (acceptTagRun l);
        let item := mkItem (slice (input l) (start l) (pos l)) "" (start l) 0 in
        (* = *)
        l ← skipOptionalFws l;
        let '(r, l) := next l in
        if negb (r =? rune_of "=") then
          Err (ParseError_ (mkParseError "expecting '='" (pos l)))
        else
          l ← skipOptionalFws l;
          (* value *)
          '(l, items) ← value_loop (bound l) l item items;
          NewTagValue_loop fuel' l items
  end.

(** [NewTagValue] parses a rfc 6376 tag=value input and returns a slice
    containing all the parsed tag-value pairs. *)
Definition NewTagValue (input : string) : outcome (list Item) :=
  NewTagValue_loop (S (String.length input)) (mkLexer input 0 0 0) [].

(** ** Fields and annotations *)

Record FieldError := mkFieldError {
  FieldError_Message : string;   (* Message, a template.HTML *)
  Severity : string
}.

Record Field := mkField {
  Field_Item : Item;             (* the embedded Item *)
  Index : Z;
  Duplicate : bool;
  Defined : bool;
  Errors : list FieldError
}.

(** The zero value of [Field], what a Go map yields for a missing key. *)
Definition zeroItem : Item := mkItem "" "" 0 0.
Definition zeroField : Field := mkField zeroItem 0 false false [].
Definition zeroParseError : ParseError := mkParseError "" 0.

Module html_template.

(** The replacement [template.HTMLEscapeString] makes for one byte. *)
Definition escapeByte (c : ascii) : string :=
  if Ascii.eqb c "000" then
    String "239" (String "191" (String "189" EmptyString))   (* U+FFFD *)
  else if Ascii.eqb c "034" then "&#34;"
  else if Ascii.eqb c "'" then "&#39;"
  else if Ascii.eqb c "&" then "&amp;"
  else if Ascii.eqb c "<" then "&lt;"
  else if Ascii.eqb c ">" then "&gt;"
  else String c EmptyString.

(** [template.HTMLEscapeString] *)
Fixpoint HTMLEscapeString (s : string) : string :=
  match s with
  | EmptyString => EmptyString
  | String c s' => escapeByte c +:+ HTMLEscapeString s'
  end.

End html_template.

Module fmt.

(** [fmt.Sprintf] for formats whose only verb is [%s], with string
    operands; a verb without an operand prints as [%!s(MISSING)]. *)
Fixpoint Sprintf (format : string) (args : list string) : string :=
  match format with
  | EmptyString => EmptyString
  | String "%" (String "s" rest) =>
      match args with
      | a :: args' => a +:+ Sprintf rest args'
      | [] => "%!s(MISSING)" +:+ Sprintf rest []
      end
  | String c rest => String c (Sprintf rest args)
  end.

End fmt.

(** The dynamic types of the [message] argument that the callers of
    [annotate] pass: a Go [string] or a [template.HTML].  (The cases of the
    type switch for a template and for any other type are not reached from
    this package.) *)
Inductive message :=
| string_ (v : string)
| template_HTML (v : string).

Definition annotate (f : Field) (severity : string) (m : message) : Field :=
  let anno :=
    match m with
    | string_ v => html_template.HTMLEscapeString v
    | template_HTML v => v
    end in
  mkField (Field_Item f) (Index f) (Duplicate f) (Defined f)
          (Errors f ++ [mkFieldError anno severity]).

Definition addError (f : Field) (m : message) : Field := annotate f "danger" m.
Definition addWarning (f : Field) (m : message) : Field := annotate f "warning" m.
Definition addInfo (f : Field) (m : message) : Field := annotate f "info" m.

(** ** The field map *)

(** The loop of [NewMap] over the items, [i] the index of the next one. *)
Fixpoint NewMap_loop (i : Z) (items : list Item) (fields : gmap string Field)
  : gmap string Field :=
  match items with
  | [] => fields
  | item :: items' =>
      let seen := bool_decide (is_Some (fields !! Tag item)) in
      let v := mkField item i seen true [] in
      NewMap_loop (i + 1) items' (<[Tag item := v]> fields)
  end.

(** [NewMap] parses a rfc 6376 tag=value input and returns a map of tag to
    item. *)
Definition NewMap (input : string) : outcome (gmap string Field) :=
  items ← NewTagValue input;
  Ret (NewMap_loop 0 items ∅).

(** ** The DKIM key validator *)

Module DkimKey.

(** A DKIM public key as published to DNS, in a format intended for
    diagnostics and display.  [Unrecognized] is [None] for Go's nil map. *)
Record t := mk {
  V : Field;
  G : Field;
  H : Field;
  K : Field;
  N : Field;
  P : Field;
  S : Field;
  T : Field;
  Unrecognized : option (gmap string Field);
  ParseError : ParseError
}.

End DkimKey.

(** A double quote, for the message texts. *)
Definition dq : string := String "034" EmptyString.

Definition msg_version_value : string :=
  "The version field must be <a href=" +:+ dq +:+ "/rfc/6376#section-3.6.1"
  +:+ dq +:+ ">DKIM1</a>" +:+ dq.

Definition msg_version_first : string :=
  "The version tag must be the <a href=" +:+ dq
  +:+ "https://tools.wordtothewise.com/rfc/6376#section-3.6.1" +:+ dq
  +:+ ">first tag in the record</a>".

Definition msg_version_absent : string :=
  "DKIM key records should ideally have a version field".

Definition msg_granularity_star : string :=
  "The granularity field (" +:+ dq +:+ "g=*" +:+ dq
  +:+ ") is deprecated in <a href=" +:+ dq
  +:+ "https://tools.wordtothewise.com/rfc/6376#appendix-C.2" +:+ dq
  +:+ ">RFC 6376</a>".

Definition msg_granularity_other : string :=
  "The granularity field (" +:+ dq +:+ "g=" +:+ dq
  +:+ ") is deprecated in <a href=" +:+ dq
  +:+ "https://tools.wordtothewise.com/rfc/6376#appendix-C.2" +:+ dq
  +:+ ">RFC 6376</a> and this value will be treated differently by pre-6376 and post-6376 validators".

Definition msg_sha1 : string :=
  "SHA1 is <a href=" +:+ dq +:+ "/rfc/8301#section-3.1" +:+ dq
  +:+ ">not a trusted hash</a>, mail using it may fail DKIM now or in the future".

Definition fmt_unknown_hash : string := "'%s' isn't a hash type I recognize".

(** [f.Value], through the embedded [Item]. *)
Definition FValue (f : Field) : string := Value (Field_Item f).

(** [Fields[k]]: the zero [Field] when the key is missing. *)
Definition Fields_at (Fields : gmap string Field) (k : string) : Field :=
  default zeroField (Fields !! k).

Definition knownTags : list string := ["v"; "g"; "h"; "k"; "n"; "p"; "s"; "t"].

(** The annotation of one token of the [h] value. *)
Definition annotate_hash (H : Field) (algo : string) : Field :=
  if String.eqb algo "sha256" then H
  else if String.eqb algo "sha1" then addWarning H (template_HTML msg_sha1)
  else addWarning H (string_ (fmt.Sprintf fmt_unknown_hash [])).

(** [NewDkimKey].  The source ends without a [return]; the model yields
    [ret], the value the function builds.  The switch on [ret.K.Value] has
    no case. *)
Definition NewDkimKey (input : string) : outcome DkimKey.t :=
  match NewMap input with
  | Unfinished => Unfinished
  | Err err =>
      match err with
      | ParseError_ v =>
          Ret (DkimKey.mk zeroField zeroField zeroField zeroField zeroField
                          zeroField zeroField zeroField None v)
      | _ =>
          Ret (DkimKey.mk zeroField zeroField zeroField zeroField zeroField
                          zeroField zeroField zeroField None
                          (mkParseError (Error err) 0))
      end
  | Ret Fields =>
      let V := Fields_at Fields "v" in
      let G := Fields_at Fields "g" in
      let H := Fields_at Fields "h" in
      let K := Fields_at Fields "k" in
      let N := Fields_at Fields "n" in
      let P := Fields_at Fields "p" in
      let S := Fields_at Fields "s" in
      let T := Fields_at Fields "t" in
      let Unrecognized := fold_left (fun m k => delete k m) knownTags Fields in
      (* Annotate version *)
      let V :=
        if Defined V then
          let V :=
            if negb (String.eqb (FValue V) "DKIM1")
            then addError V (template_HTML msg_version_value) else V in
          if negb (Index V =? 0)
          then addError V (template_HTML msg_version_first) else V
        else addWarning V (string_ msg_version_absent) in
      (* Annotate granularity *)
      let V :=
        if Defined G then
          if String.eqb (FValue G) "*"
          then addWarning V (template_HTML msg_granularity_star)
          else addError V (string_ msg_granularity_other)
        else V in
      (* Annotate hash *)
      let H :=
        if Defined H then
          fold_left annotate_hash (strings.Split (FValue H) ":") H
        else H in
      Ret (DkimKey.mk V G H K N P S T (Some Unrecognized) zeroParseError)
  end.

(** * The vocabulary of the properties

    The predicates and functions in which the properties below are stated:
    what a lexer has left to read, character sets and runs, the shape of
    folding whitespace, and the tag-list texts with their items. *)

Import utf8.

(** A rune read from a byte below [RuneSelf] is that byte; every other rune
    is at least [RuneSelf] and all its bytes are. *)
Definition high (a : string) : Prop :=
  Forall (fun c => 0x80 <= byteval c) (bytes a).

(** The cursor is inside the input. *)
Definition wf (l : lexer) : Prop := 0 <= pos l <= len (input l).

(** The input that is still to be read. *)
Definition rest (l : lexer) : string := slice_from (input l) (pos l).

(** The lexer after it has read the bytes [a], the last rune [w] wide. *)
Definition advance (l : lexer) (a : string) (w : Z) : lexer :=
  mkLexer (input l) (start l) (pos l + len a) w.

(** The width of the rune that [next] would read from [s]. *)
Definition peekw (s : string) : Z :=
  match s with
  | EmptyString => 0
  | _ => snd (DecodeRuneInString s)
  end.

(** The bytes of a rune: one byte below [RuneSelf] that is the rune, or
    bytes that are all at least [RuneSelf], as the rune is. *)
Definition rune_bytes (r : rune) (a : string) : Prop :=
  (exists c, a = String c "" /\ r = byteval c /\ r < 0x80)
  \/ (0x80 <= r /\ a <> "" /\ high a).

(** The rune that [next] would read from [s]. *)
Definition first_rune (s : string) : rune :=
  match s with
  | EmptyString => eof
  | _ => fst (DecodeRuneInString s)
  end.

(** A set of characters given by a string of bytes below [RuneSelf], as all
    the sets of this package are. *)
Definition ascii_only (valid : string) : Prop :=
  Forall (fun c => byteval c < 0x80) (bytes valid).

(** The byte [c] is in the set. *)
Definition memb (valid : string) (c : ascii) : bool :=
  existsb (Ascii.eqb c) (bytes valid).

(** The string starts with a byte that satisfies [P]. *)
Definition starts (P : ascii -> bool) (s : string) : bool :=
  match s with
  | EmptyString => false
  | String c _ => P c
  end.

(** All the bytes of the string satisfy [P]. *)
Fixpoint all (P : ascii -> bool) (s : string) : bool :=
  match s with
  | EmptyString => true
  | String c s' => P c && all P s'
  end.

(** The longest prefix of bytes that satisfy [P], and what follows it. *)
Fixpoint span (P : ascii -> bool) (s : string) : string * string :=
  match s with
  | EmptyString => (EmptyString, EmptyString)
  | String c s' =>
      if P c then let '(a, b) := span P s' in (String c a, b)
      else (EmptyString, s)
  end.

Definition isWSP (c : ascii) : bool := memb WSP c.

(** What [acceptOptionalFws] does on the rest [s] of the input: the
    whitespace it moves over and what is left, or [None] for a CRLF that no
    space or tab follows. *)
Definition scan_fws (s : string) : option (string * string) :=
  let '(w1, s1) := span isWSP s in
  match s1 with
  | String c1 (String c2 s2) =>
      if Ascii.eqb c1 CR && Ascii.eqb c2 LF then
        if starts isWSP s2 then
          let '(w2, s3) := span isWSP s2 in
          Some (w1 +:+ CRLF +:+ w2, s3)
        else None
      else Some (w1, s1)
  | _ => Some (w1, s1)
  end.

Definition malformed : error := errors_New "malformed folding whitespace".

(** An optional folding whitespace: spaces and tabs, then possibly one
    CRLF followed by at least one space or tab. *)
Inductive ofws : string -> Prop :=
| ofws_plain (w : string) : all isWSP w = true -> ofws w
| ofws_fold (w1 w2 : string) :
    all isWSP w1 = true -> all isWSP w2 = true -> w2 <> "" ->
    ofws (w1 +:+ CRLF +:+ w2).

(** The last byte of a string. *)
Fixpoint last_byte (s : string) : option ascii :=
  match s with
  | EmptyString => None
  | String c s' =>
      match last_byte s' with
      | Some d => Some d
      | None => Some c
      end
  end.

(** The value does not end in a space or a tab. *)
Definition last_not_wsp (v : string) : Prop :=
  match last_byte v with
  | Some c => isWSP c = false
  | None => True
  end.

(** What ends a tag-spec: a semicolon, or the end of the input. *)
Definition term_ok (t r : string) : Prop := t = ";" \/ (t = "" /\ r = "").

(** A CRLF that no space or tab follows. *)
Definition bad_fold (s : string) : Prop :=
  exists pre r, s = pre +:+ CRLF +:+ r /\ starts isWSP r = false.

Definition notSemi (c : ascii) : bool := negb (Ascii.eqb c ";").

(** The outcome of the value loop, for the lexer [l] it is entered with. *)
Definition value_done (l : lexer) (item : Item) (items : list Item)
    (res : lexer * list Item) : Prop :=
  exists v w t,
    res.2 = items ++ [mkItem (Tag item)
                        (slice (input l) (start l) (pos l + len v))
                        (TagPos item) (start l)]
    /\ rest l = v +:+ w +:+ t +:+ rest res.1
    /\ ofws w /\ term_ok t (rest res.1) /\ last_not_wsp v
    /\ all notSemi v = true
    /\ wf res.1 /\ input res.1 = input l /\ start res.1 = start l
    /\ pos res.1 = pos l + len v + len w + len t.

(** The lexer [l] scans [inp], the pending item starts at [st], the cursor
    is at [p] and [s] is still to be read. *)
Definition lex_at (l : lexer) (inp : string) (st p : Z) (s : string) : Prop :=
  input l = inp /\ start l = st /\ pos l = p /\ rest l = s /\ wf l.

Definition isTagChar (c : ascii) : bool := memb tagChars c.

Definition isAlpha (c : ascii) : bool := negb (notAlpha (byteval c)).

(** A tag name: a letter, then letters, digits and underscores. *)
Definition is_tag (tag : string) : bool :=
  match tag with
  | EmptyString => false
  | String c t => isAlpha c && all isTagChar t
  end.

(** The text of one tag-spec, with the whitespace [w0] .. [w3] around the
    tag name and the value. *)
Definition tag_spec (w0 tag w1 w2 v w3 : string) : string :=
  w0 +:+ tag +:+ w1 +:+ "=" +:+ w2 +:+ v +:+ w3.

(** [tag_list off s items]: the text [s], found at offset [off] of the
    input, is a tag-list whose tag-specs are [items], in order. *)
Inductive tag_list : Z -> string -> list Item -> Prop :=
| tag_list_end (off : Z) (w : string) :
    ofws w -> tag_list off w []
| tag_list_spec (off : Z) (w0 tag w1 w2 v w3 t s : string) (items : list Item) :
    ofws w0 -> is_tag tag = true -> ofws w1 -> ofws w2 -> ofws w3 ->
    last_not_wsp v -> all notSemi v = true -> term_ok t s ->
    tag_list (off + len (tag_spec w0 tag w1 w2 v w3 +:+ t)) s items ->
    tag_list off (tag_spec w0 tag w1 w2 v w3 +:+ t +:+ s)
      (mkItem tag v (off + len w0)
              (off + len (w0 +:+ tag +:+ w1 +:+ "=" +:+ w2)) :: items).

Definition expecting_alpha (p : Z) : error :=
  ParseError_ (mkParseError "expecting alpha character in tag" p).

Definition expecting_eq (p : Z) : error :=
  ParseError_ (mkParseError "expecting '='" p).

(** What the outer loop yields from the lexer [l]: the items of the
    tag-list that was left to read, or one of the three errors. *)
Definition loop_result (l : lexer) (acc : list Item)
    (o : outcome (list Item)) : Prop :=
  match o with
  | Ret res => exists new, res = acc ++ new /\ tag_list (pos l) (rest l) new
  | Err e =>
      (e = malformed /\ bad_fold (rest l))
      \/ (exists p, e = expecting_alpha p) \/ (exists p, e = expecting_eq p)
  | Unfinished => False
  end.

(** The key that reports a parse error: nothing but [ParseError] is set. *)
Definition errorKey (pe : ParseError) : DkimKey.t :=
  DkimKey.mk zeroField zeroField zeroField zeroField zeroField zeroField
             zeroField zeroField None pe.

(** The annotations that the version rules and the granularity rules
    produce.  Both lists end up on the field [V]. *)
Definition version_errors (V : Field) : list FieldError :=
  if Defined V then
    (if negb (String.eqb (FValue V) "DKIM1")
     then [mkFieldError msg_version_value "danger"] else [])
    ++ (if negb (Index V =? 0)
        then [mkFieldError msg_version_first "danger"] else [])
  else [mkFieldError msg_version_absent "warning"].

Definition granularity_errors (G : Field) : list FieldError :=
  if Defined G then
    if String.eqb (FValue G) "*"
    then [mkFieldError msg_granularity_star "warning"]
    else [mkFieldError (html_template.HTMLEscapeString msg_granularity_other)
                       "danger"]
  else [].

(** [strings.Contains(s, substr)], to say that a message names a token. *)
Fixpoint Contains (s substr : string) : bool :=
  HasPrefix s substr
  || match s with
     | EmptyString => false
     | String _ s' => Contains s' substr
     end.

(** The message for a hash that is not recognized, the same for every
    token: the format has a verb and no operand. *)
Definition msg_unknown_hash : string :=
  "&#39;%!s(MISSING)&#39; isn&#39;t a hash type I recognize".

(** A byte of folding whitespace: space, tab, CR or LF. *)
Definition isFwsByte (c : ascii) : bool :=
  isWSP c || Ascii.eqb c CR || Ascii.eqb c LF.

(** C2 as the specification states it: the stored value stops before any
    whitespace that precedes the terminator, so its last byte is not a
    byte of folding whitespace. *)
Definition trailing_fws_trimmed (v : string) : Prop :=
  match last_byte v with
  | Some c => isFwsByte c = false
  | None => True
  end.

(** ["<tag>=<value>;"] for every item, in order. *)
Fixpoint serialize (items : list Item) : string :=
  match items with
  | [] => ""
  | it :: items' => Tag it +:+ "=" +:+ Value it +:+ ";" +:+ serialize items'
  end.

(** The optional whitespace of one tag-spec: before the tag name, after
    it, before the value and after it. *)
Definition pad : Type := string * string * string * string.

Definition no_pad : pad := ("", "", "", "").

Definition pad_wsp (p : pad) : Prop :=
  let '(w0, w1, w2, w3) := p in
  all isWSP w0 = true /\ all isWSP w1 = true
  /\ all isWSP w2 = true /\ all isWSP w3 = true.

(** The serialization with the whitespace [ps] put back around the tags
    and the values. *)
Fixpoint render (ps : list pad) (items : list Item) : string :=
  match ps, items with
  | (w0, w1, w2, w3) :: ps', it :: items' =>
      tag_spec w0 (Tag it) w1 w2 (Value it) w3 +:+ ";" +:+ render ps' items'
  | _, _ => ""
  end.

(** No CRLF anywhere in the text. *)
Definition no_fold (s : string) : Prop := forall a b, s <> a +:+ CRLF +:+ b.

(** A byte that is a value character. *)
Definition isValueByte (c : ascii) : bool := isValueChar (byteval c).

(** A byte that is neither a value character, nor the semicolon, nor a
    space or a tab: a control character, DEL or a byte above 0x7E. *)
Definition odd_byte (c : ascii) : bool :=
  negb (isValueByte c) && notSemi c && negb (isWSP c).

(** No folding whitespace starts here: no space, tab or CR. *)
Definition no_fws_here (s : string) : Prop :=
  starts (fun c => isWSP c || Ascii.eqb c CR) s = false.

(** What may follow the first character of a value: value characters,
    folding whitespace before a value character, and odd bytes before a
    value character. *)
Inductive vbody : string -> Prop :=
| vbody_nil : vbody ""
| vbody_char (c : ascii) (v : string) :
    isValueByte c = true -> vbody v -> vbody (String c v)
| vbody_fws (w : string) (c : ascii) (v : string) :
    ofws w -> w <> "" -> isValueByte c = true -> vbody v ->
    vbody (w +:+ String c v)
| vbody_odd (x c : ascii) (v : string) :
    odd_byte x = true -> isValueByte c = true -> vbody v ->
    vbody (String x (String c v)).

(** A value: empty, or a value character and a body. *)
Definition value_text (v : string) : Prop :=
  vbody v /\ (v = "" \/ starts isValueByte v = true).

(** The rest of an iteration of the outer loop, from the lexer that has
    read the tag name, and from the one that has read the equals sign. *)
Definition after_eq (n : nat) (acc : list Item) (tag : string) (tagpos : Z)
    (l5 : lexer) : outcome (list Item) :=
  match skipOptionalFws l5 with
  | Ret l6 =>
      match value_loop (bound l6) l6 (mkItem tag "" tagpos 0) acc with
      | Ret (l7, items') => NewTagValue_loop n l7 items'
      | Err e => Err e
      | Unfinished => Unfinished
      end
  | Err e => Err e
  | Unfinished => Unfinished
  end.

Definition after_tag (n : nat) (acc : list Item) (tag : string) (tagpos : Z)
    (l3 : lexer) : outcome (list Item) :=
  match skipOptionalFws l3 with
  | Ret l4 =>
      let '(r', l5) := next l4 in
      if negb (r' =? rune_of "=") then Err (expecting_eq (pos l5))
      else after_eq n acc tag tagpos l5
  | Err e => Err e
  | Unfinished => Unfinished
  end.

(** What follows a tag name: no letter, digit or underscore. *)
Definition ends_tag (s : string) : Prop := starts isTagChar s = false.

(** A tag-list as the grammar has it, with the items it stands for: the
    values are [value_text]s and an empty value has no whitespace of its
    own after it. *)
Inductive well_formed : Z -> string -> list Item -> Prop :=
| well_formed_end (off : Z) (w : string) :
    ofws w -> well_formed off w []
| well_formed_spec (off : Z) (w0 tag w1 w2 v w3 t s : string)
    (items : list Item) :
    ofws w0 -> is_tag tag = true -> ofws w1 -> ofws w2 -> value_text v ->
    ofws w3 -> (v = "" -> w3 = "") -> term_ok t s ->
    well_formed (off + len (tag_spec w0 tag w1 w2 v w3 +:+ t)) s items ->
    well_formed off (tag_spec w0 tag w1 w2 v w3 +:+ t +:+ s)
      (mkItem tag v (off + len w0)
              (off + len (w0 +:+ tag +:+ w1 +:+ "=" +:+ w2)) :: items).

(** [bad_fold_at k s]: in the tag-list text [s], the parser skips optional
    whitespace at a place where, after spaces and tabs, a CRLF stands at
    offset [k] with no space or tab after it.  The places are those of the
    grammar: before a tag name, after it, after the equals sign and after
    a run of the value; complete tag-specs may come before. *)
Inductive bad_fold_at : Z -> string -> Prop :=
| bad_before_tag (w r : string) :
    all isWSP w = true -> starts isWSP r = false ->
    bad_fold_at (len w) (w +:+ CRLF +:+ r)
| bad_after_tag (w0 tag w r : string) :
    ofws w0 -> is_tag tag = true ->
    all isWSP w = true -> starts isWSP r = false ->
    bad_fold_at (len (w0 +:+ tag +:+ w)) (w0 +:+ tag +:+ w +:+ CRLF +:+ r)
| bad_after_eq (w0 tag w1 w r : string) :
    ofws w0 -> is_tag tag = true -> ofws w1 ->
    all isWSP w = true -> starts isWSP r = false ->
    bad_fold_at (len (w0 +:+ tag +:+ w1 +:+ "=" +:+ w))
                (w0 +:+ tag +:+ w1 +:+ "=" +:+ w +:+ CRLF +:+ r)
| bad_in_value (w0 tag w1 w2 v w r : string) :
    ofws w0 -> is_tag tag = true -> ofws w1 -> ofws w2 ->
    value_text v -> v <> "" ->
    all isWSP w = true -> starts isWSP r = false ->
    bad_fold_at (len (w0 +:+ tag +:+ w1 +:+ "=" +:+ w2 +:+ v +:+ w))
                (w0 +:+ tag +:+ w1 +:+ "=" +:+ w2 +:+ v +:+ w +:+ CRLF +:+ r)
| bad_later (w0 tag w1 w2 v w3 s : string) (k : Z) :
    ofws w0 -> is_tag tag = true -> ofws w1 -> ofws w2 -> value_text v ->
    ofws w3 -> (v = "" -> w3 = "") ->
    bad_fold_at k s ->
    bad_fold_at (len (tag_spec w0 tag w1 w2 v w3 +:+ ";") + k)
                (tag_spec w0 tag w1 w2 v w3 +:+ ";" +:+ s).

(** [y] is one character at the head of the text [y ++ rest], as [next]
    reads it (the bytes of one rune; one byte where the encoding is not
    valid), and that character is not the semicolon. *)
Definition kept_char (y rest : string) : Prop :=
  y <> "" /\ len y = peekw (y +:+ rest)
  /\ first_rune (y +:+ rest) <> rune_of ";".

(** [w] is an optional folding whitespace in front of [rest] and nothing
    of [rest] belongs to it: [rest] does not start with a space or a tab
    and, where [w] has no CRLF of its own, not with a CRLF either. *)
Definition fws_before (w rest : string) : Prop :=
  ofws w /\ starts isWSP rest = false
  /\ (all isWSP w = true -> HasPrefix rest CRLF = false).

(** [kept k v]: the text [v], followed by [k], is made of value
    characters and of other characters that are not semicolons, each of
    these with an optional folding whitespace in front of it.  These are
    the characters that the value loop keeps. *)
Inductive kept (k : string) : string -> Prop :=
| kept_nil : kept k ""
| kept_value (c : ascii) (v : string) :
    isValueByte c = true -> kept k v -> kept k (String c v)
| kept_other (w y v : string) :
    fws_before w (y +:+ v +:+ k) -> kept_char y (v +:+ k) -> kept k v ->
    kept k (w +:+ y +:+ v).


(** * Properties *)

(** ** Facts on Go strings *)

Lemma str_app_cons (c : ascii) (a b : string) :
  String c a +:+ b = String c (a +:+ b).
Proof. reflexivity. Qed.

Lemma str_app_nil_l (a : string) : "" +:+ a = a.
Proof. reflexivity. Qed.

Lemma bytes_app (a b : string) : bytes (a +:+ b) = bytes a ++ bytes b.
Proof.
  induction a as [|c a IH]; [done|].
  rewrite str_app_cons. simpl. by rewrite IH.
Qed.

Lemma of_bytes_app (x y : list ascii) :
  string_of_list_ascii (x ++ y)
  = string_of_list_ascii x +:+ string_of_list_ascii y.
Proof.
  induction x as [|c x IH]; [done|].
  simpl. by rewrite IH, str_app_cons.
Qed.

Lemma length_bytes (s : string) : length (bytes s) = String.length s.
Proof. induction s as [|c s IH]; simpl; [done | by rewrite IH]. Qed.

Lemma of_bytes_bytes (s : string) : string_of_list_ascii (bytes s) = s.
Proof. apply string_of_list_ascii_of_string. Qed.

Lemma bytes_of_bytes (x : list ascii) : bytes (string_of_list_ascii x) = x.
Proof. apply list_ascii_of_string_of_list_ascii. Qed.

Lemma len_app (a b : string) : len (a +:+ b) = len a + len b.
Proof.
  unfold len. rewrite <- !length_bytes, bytes_app, length_app. lia.
Qed.

Lemma len_nonneg (s : string) : 0 <= len s.
Proof. unfold len. lia. Qed.

Lemma len_String (c : ascii) (s : string) : len (String c s) = 1 + len s.
Proof. unfold len. simpl. lia. Qed.

Lemma len_zero (s : string) : len s = 0 -> s = "".
Proof.
  destruct s; [done|]. rewrite len_String. pose proof (len_nonneg s). lia.
Qed.

Lemma str_app_assoc (a b c : string) : (a +:+ b) +:+ c = a +:+ (b +:+ c).
Proof.
  induction a as [|x a IH]; [done|]. rewrite !str_app_cons. by rewrite IH.
Qed.

Lemma str_app_nil_r (a : string) : a +:+ "" = a.
Proof.
  induction a as [|x a IH]; [done|]. rewrite str_app_cons. by rewrite IH.
Qed.

Lemma str_app_inv_head (a b c : string) : a +:+ b = a +:+ c -> b = c.
Proof. apply String.app_inj. Qed.

Lemma slice_from_0 (s : string) : slice_from s 0 = s.
Proof. unfold slice_from. simpl. apply of_bytes_bytes. Qed.

Lemma slice_from_app (s a b : string) (p : Z) :
  0 <= p -> slice_from s p = a +:+ b -> slice_from s (p + len a) = b.
Proof.
  unfold slice_from, len. intros Hp E.
  apply (f_equal bytes) in E. rewrite bytes_of_bytes, bytes_app in E.
  replace (Z.to_nat (p + Z.of_nat (String.length a)))
    with (Z.to_nat p + String.length a)%nat by lia.
  rewrite <- drop_drop, E, <- length_bytes, drop_app_length.
  apply of_bytes_bytes.
Qed.

Lemma slice_from_len (s : string) (p : Z) :
  0 <= p <= len s -> len (slice_from s p) = len s - p.
Proof.
  unfold slice_from, len. rewrite <- !length_bytes, bytes_of_bytes, length_drop.
  lia.
Qed.

Lemma slice_app (s a b : string) (p : Z) :
  0 <= p -> slice_from s p = a +:+ b -> slice s p (p + len a) = a.
Proof.
  unfold slice_from, slice, len. intros Hp E.
  apply (f_equal bytes) in E. rewrite bytes_of_bytes, bytes_app in E.
  rewrite E.
  replace (Z.to_nat (p + Z.of_nat (String.length a) - p))
    with (length (bytes a)) by (rewrite length_bytes; lia).
  rewrite take_app_length. apply of_bytes_bytes.
Qed.

Lemma slice_split (s : string) (a b c : Z) :
  0 <= a <= b -> b <= c ->
  slice s a c = slice s a b +:+ slice s b c.
Proof.
  unfold slice. intros Hab Hbc. rewrite <- of_bytes_app. f_equal.
  replace (Z.to_nat (c - a)) with (Z.to_nat (b - a) + Z.to_nat (c - b))%nat
    by lia.
  rewrite <- take_take_drop. f_equal. rewrite drop_drop. f_equal. f_equal. lia.
Qed.

(** ** Facts on UTF-8 decoding *)

Lemma byteval_range (c : ascii) : 0 <= byteval c < 256.
Proof.
  unfold byteval. pose proof (N_ascii_bounded c) as Hb. lia.
Qed.

Lemma byteval_inj (c d : ascii) : byteval c = byteval d -> c = d.
Proof.
  unfold byteval. intros E. apply N2Z.inj in E.
  rewrite <- (ascii_N_embedding c), <- (ascii_N_embedding d). by rewrite E.
Qed.

Lemma land_upper (a b : Z) : 0 <= a -> 0 <= b -> Z.land a b <= a.
Proof.
  intros Ha Hb.
  assert (Hd : Z.land (Z.ldiff a b) (Z.land a b) = 0).
  { apply Z.bits_inj'. intros n Hn.
    rewrite !Z.land_spec, Z.ldiff_spec, Z.bits_0.
    destruct (Z.testbit a n), (Z.testbit b n); reflexivity. }
  pose proof (Z.lor_ldiff_and a b) as E.
  rewrite <- (Z.lxor_lor _ _ Hd), <- (Z.add_nocarry_lxor _ _ Hd) in E.
  assert (0 <= Z.ldiff a b) by (apply Z.ldiff_nonneg; lia).
  lia.
Qed.

Lemma lor_lower (a b : Z) : 0 <= a -> 0 <= b -> a <= Z.lor a b /\ b <= Z.lor a b.
Proof.
  intros Ha Hb. pose proof (Z.add_lor_land a b) as E.
  pose proof (land_upper a b Ha Hb).
  pose proof (land_upper b a Hb Ha) as H2. rewrite Z.land_comm in H2. lia.
Qed.

Lemma len_empty : len "" = 0.
Proof. reflexivity. Qed.

Lemma DecodeRune_ascii (c : ascii) (s : string) :
  byteval c < 0x80 -> DecodeRuneInString (String c s) = (byteval c, 1).
Proof.
  intros Hc. unfold DecodeRuneInString. rewrite len_String.
  pose proof (len_nonneg s).
  destruct (Z.ltb_spec (1 + len s) 1); [lia|].
  unfold at_. simpl. unfold first_size.
  destruct (Z.ltb_spec (byteval c) 128); [|lia]. reflexivity.
Qed.

Lemma high_nil : high "".
Proof. constructor. Qed.

Lemma high_one (c : ascii) : 0x80 <= byteval c -> high (String c "").
Proof. intros. constructor; [done | constructor]. Qed.

Lemma high_cons (c : ascii) (a : string) :
  0x80 <= byteval c -> high a -> high (String c a).
Proof. intros. by constructor. Qed.

Lemma first_size_cases (x : Z) :
  (x < 0x80 /\ first_size x = 1) \/ (0x80 <= x < 0xC2 /\ first_size x = 0)
  \/ (0xC2 <= x < 0xE0 /\ first_size x = 2)
  \/ (0xE0 <= x < 0xF0 /\ first_size x = 3)
  \/ (0xF0 <= x < 0xF5 /\ first_size x = 4)
  \/ (0xF5 <= x /\ first_size x = 0).
Proof.
  unfold first_size.
  repeat (match goal with |- context [?a <? ?b] =>
            destruct (Z.ltb_spec a b) end); lia.
Qed.

Lemma acceptRange_bounds (x lo hi : Z) :
  acceptRange x = (lo, hi) ->
  0x80 <= lo /\ hi <= 0xBF /\ (x = 0xE0 -> lo = 0xA0) /\ (x = 0xF0 -> lo = 0x90).
Proof.
  unfold acceptRange, locb, hicb.
  repeat (match goal with |- context [?a =? ?b] =>
            destruct (Z.eqb_spec a b) end); intros [= <- <-]; lia.
Qed.

Lemma mask_mod (x : Z) :
  Z.land x mask2 = x mod 32 /\ Z.land x mask3 = x mod 16
  /\ Z.land x mask4 = x mod 8 /\ Z.land x maskx = x mod 64.
Proof.
  change mask2 with (Z.ones 5). change mask3 with (Z.ones 4).
  change mask4 with (Z.ones 3). change maskx with (Z.ones 6).
  rewrite !Z.land_ones by lia. done.
Qed.

Lemma rune2_high (s0 s1 : Z) :
  0xC2 <= s0 < 0xE0 -> 0 <= s1 ->
  0x80 <= Z.lor (Z.shiftl (Z.land s0 mask2) 6) (Z.land s1 maskx).
Proof.
  intros H0 H1. destruct (mask_mod s0) as (-> & _). destruct (mask_mod s1) as (_ & _ & _ & ->).
  rewrite Z.shiftl_mul_pow2 by lia. change (2 ^ 6) with 64.
  pose proof (lor_lower (s0 mod 32 * 64) (s1 mod 64)). Z.div_mod_to_equations. lia.
Qed.

Lemma rune3_high (s0 s1 s2 : Z) :
  0xE0 <= s0 < 0xF0 -> (s0 = 0xE0 -> 0xA0 <= s1) -> 0x80 <= s1 <= 0xBF ->
  0 <= s2 ->
  0x80 <= Z.lor (Z.lor (Z.shiftl (Z.land s0 mask3) 12)
                       (Z.shiftl (Z.land s1 maskx) 6))
                (Z.land s2 maskx).
Proof.
  intros H0 HE H1 H2.
  destruct (mask_mod s0) as (_ & -> & _). destruct (mask_mod s1) as (_ & _ & _ & ->).
  destruct (mask_mod s2) as (_ & _ & _ & ->).
  rewrite !Z.shiftl_mul_pow2 by lia.
  change (2 ^ 6) with 64. change (2 ^ 12) with 4096. change (2 ^ 18) with 262144.
  pose proof (lor_lower (s0 mod 16 * 4096) (s1 mod 64 * 64)).
  pose proof (lor_lower (Z.lor (s0 mod 16 * 4096) (s1 mod 64 * 64)) (s2 mod 64)).
  Z.div_mod_to_equations. lia.
Qed.

Lemma rune4_high (s0 s1 s2 s3 : Z) :
  0xF0 <= s0 < 0xF5 -> (s0 = 0xF0 -> 0x90 <= s1) -> 0x80 <= s1 <= 0xBF ->
  0 <= s2 -> 0 <= s3 ->
  0x80 <= Z.lor (Z.lor (Z.lor (Z.shiftl (Z.land s0 mask4) 18)
                              (Z.shiftl (Z.land s1 maskx) 12))
                       (Z.shiftl (Z.land s2 maskx) 6))
                (Z.land s3 maskx).
Proof.
  intros H0 HF H1 H2 H3.
  destruct (mask_mod s0) as (_ & _ & -> & _). destruct (mask_mod s1) as (_ & _ & _ & ->).
  destruct (mask_mod s2) as (_ & _ & _ & ->). destruct (mask_mod s3) as (_ & _ & _ & ->).
  rewrite !Z.shiftl_mul_pow2 by lia.
  change (2 ^ 6) with 64. change (2 ^ 12) with 4096. change (2 ^ 18) with 262144.
  pose proof (lor_lower (s0 mod 8 * 262144) (s1 mod 64 * 4096)).
  pose proof (lor_lower (Z.lor (s0 mod 8 * 262144) (s1 mod 64 * 4096)) (s2 mod 64 * 64)).
  pose proof (lor_lower (Z.lor (Z.lor (s0 mod 8 * 262144) (s1 mod 64 * 4096)) (s2 mod 64 * 64)) (s3 mod 64)).
  Z.div_mod_to_equations. lia.
Qed.

Lemma DecodeRune_high (c : ascii) (s : string) :
  0x80 <= byteval c ->
  exists r a b,
    DecodeRuneInString (String c s) = (r, len a)
    /\ String c s = a +:+ b /\ a <> "" /\ 0x80 <= r /\ high a.
Proof.
  intros Hc. pose proof (byteval_range c) as Rc.
  assert (Herr : exists r a b, (RuneError, 1) = (r, len a)
    /\ String c s = a +:+ b /\ a <> "" /\ 0x80 <= r /\ high a).
  { exists RuneError, (String c ""), s.
    split; [done|]. split; [done|]. split; [done|]. split; [done|].
    by apply high_one. }
  unfold DecodeRuneInString. rewrite len_String. pose proof (len_nonneg s).
  destruct (Z.ltb_spec (1 + len s) 1); [lia|].
  change (at_ (String c s) 0) with (byteval c).
  destruct (acceptRange (byteval c)) as [lo hi] eqn:Hrange.
  apply acceptRange_bounds in Hrange as (Hlo & Hhi & HE0 & HF0).
  cbv zeta.
  destruct (first_size_cases (byteval c))
    as [[? ->]|[[? ->]|[[? ->]|[[? ->]|[[? ->]|[? ->]]]]]]; simpl Z.eqb; cbv iota;
    try lia; try exact Herr.
  - (* two bytes *)
    destruct (Z.ltb_spec (1 + len s) 2); [exact Herr|].
    destruct s as [|c1 s]; [rewrite len_empty in *; lia|].
    change (at_ (String c (String c1 s)) 1) with (byteval c1).
    destruct (Z.ltb_spec (byteval c1) lo); [exact Herr|].
    destruct (Z.ltb_spec hi (byteval c1)); [exact Herr|].
    simpl. eexists _, (String c (String c1 "")), s.
    split; [reflexivity|]. split; [done|]. split; [done|].
    split; [|repeat (apply high_cons; [lia|]); apply high_nil].
    apply rune2_high; lia.
  - (* three bytes *)
    destruct (Z.ltb_spec (1 + len s) 3); [exact Herr|].
    destruct s as [|c1 [|c2 s]];
      [rewrite len_empty in *; lia | rewrite len_String, len_empty in *; lia |].
    change (at_ (String c (String c1 (String c2 s))) 1) with (byteval c1).
    change (at_ (String c (String c1 (String c2 s))) 2) with (byteval c2).
    destruct (Z.ltb_spec (byteval c1) lo); [exact Herr|].
    destruct (Z.ltb_spec hi (byteval c1)); [exact Herr|].
    unfold locb, hicb.
    destruct (Z.ltb_spec (byteval c2) 128); [exact Herr|].
    destruct (Z.ltb_spec 191 (byteval c2)); [exact Herr|].
    simpl. eexists _, (String c (String c1 (String c2 ""))), s.
    split; [reflexivity|]. split; [done|]. split; [done|].
    split; [|repeat (apply high_cons; [lia|]); apply high_nil].
    apply rune3_high; lia.
  - (* four bytes *)
    destruct (Z.ltb_spec (1 + len s) 4); [exact Herr|].
    destruct s as [|c1 [|c2 [|c3 s]]];
      [rewrite ?len_String, len_empty in *; lia ..|].
    change (at_ (String c (String c1 (String c2 (String c3 s)))) 1)
      with (byteval c1).
    change (at_ (String c (String c1 (String c2 (String c3 s)))) 2)
      with (byteval c2).
    change (at_ (String c (String c1 (String c2 (String c3 s)))) 3)
      with (byteval c3).
    destruct (Z.ltb_spec (byteval c1) lo); [exact Herr|].
    destruct (Z.ltb_spec hi (byteval c1)); [exact Herr|].
    unfold locb, hicb.
    destruct (Z.ltb_spec (byteval c2) 128); [exact Herr|].
    destruct (Z.ltb_spec 191 (byteval c2)); [exact Herr|].
    destruct (Z.ltb_spec (byteval c3) 128); [exact Herr|].
    destruct (Z.ltb_spec 191 (byteval c3)); [exact Herr|].
    simpl. eexists _, (String c (String c1 (String c2 (String c3 "")))), s.
    split; [reflexivity|]. split; [done|]. split; [done|].
    split; [|repeat (apply high_cons; [lia|]); apply high_nil].
    apply rune4_high; lia.
Qed.

(** ** Facts on the scanner *)

Lemma rest_advance (l : lexer) (a b : string) (w : Z) :
  wf l -> rest l = a +:+ b -> rest (advance l a w) = b.
Proof. intros [Hp _] E. apply slice_from_app; [exact Hp | exact E]. Qed.

Lemma len_rest (l : lexer) : wf l -> len (rest l) = len (input l) - pos l.
Proof. intros Hl. by apply slice_from_len. Qed.

Lemma wf_advance (l : lexer) (a b : string) (w : Z) :
  wf l -> rest l = a +:+ b -> wf (advance l a w).
Proof.
  intros Hl E. pose proof (len_rest l Hl) as Hr.
  rewrite E, len_app in Hr. unfold wf in *. simpl.
  pose proof (len_nonneg a). pose proof (len_nonneg b). lia.
Qed.

Lemma advance_nil (l : lexer) : advance l "" (width l) = l.
Proof. destruct l. unfold advance. simpl. f_equal. rewrite len_empty. lia. Qed.

(** [next] reads the first rune of the rest. *)
Lemma next_rest (l : lexer) :
  wf l ->
  next l =
    match rest l with
    | EmptyString => (eof, set_width l 0)
    | _ => let '(r, w) := DecodeRuneInString (rest l) in
           (r, mkLexer (input l) (start l) (pos l + w) w)
    end.
Proof.
  intros Hl. pose proof (len_rest l Hl) as Hr. unfold next. fold (rest l).
  destruct (Z.leb_spec (len (input l)) (pos l)) as [Hle|Hlt].
  - pose proof (len_nonneg (rest l)). rewrite (len_zero (rest l)); [done | lia].
  - destruct (rest l) eqn:E; [rewrite len_empty in Hr; lia | done].
Qed.

Lemma next_eof (l : lexer) :
  wf l -> rest l = "" -> next l = (eof, set_width l 0).
Proof. intros Hl E. rewrite next_rest by done. by rewrite E. Qed.

Lemma next_ascii (l : lexer) (c : ascii) (s : string) :
  wf l -> rest l = String c s -> byteval c < 0x80 ->
  next l = (byteval c, advance l (String c "") 1).
Proof.
  intros Hl E Hc. rewrite next_rest by done. rewrite E.
  by rewrite DecodeRune_ascii.
Qed.

Lemma next_high (l : lexer) (c : ascii) (s : string) :
  wf l -> rest l = String c s -> 0x80 <= byteval c ->
  exists r a b,
    next l = (r, advance l a (len a))
    /\ rest l = a +:+ b /\ a <> "" /\ 0x80 <= r /\ high a.
Proof.
  intros Hl E Hc. rewrite next_rest by done. rewrite E.
  destruct (DecodeRune_high c s Hc) as (r & a & b & -> & Eab & Ha & Hr & Hh).
  exists r, a, b. done.
Qed.

Lemma next_cases (l : lexer) :
  wf l ->
  (rest l = "" /\ next l = (eof, set_width l 0))
  \/ (exists r a b,
        next l = (r, advance l a (len a))
        /\ rest l = a +:+ b /\ rune_bytes r a).
Proof.
  intros Hl. destruct (rest l) as [|c s] eqn:E.
  - left. split; [done | by apply next_eof].
  - right. destruct (Z.lt_ge_cases (byteval c) 0x80) as [Hc|Hc].
    + exists (byteval c), (String c ""), s.
      split; [by eapply next_ascii|]. split; [done|]. left. by exists c.
    + destruct (next_high l c s Hl E Hc) as (r & a & b & Hn & Eab & Ha & Hr & Hh).
      exists r, a, b. rewrite <- E. split; [done|]. split; [done|]. by right.
Qed.

Lemma rune_bytes_nonempty (r : rune) (a : string) : rune_bytes r a -> 0 < len a.
Proof.
  intros [(c & -> & _)|(_ & Ha & _)]; [done|].
  destruct a as [|c a]; [done|]. rewrite len_String. pose proof (len_nonneg a). lia.
Qed.

Lemma rune_bytes_nonneg (r : rune) (a : string) : rune_bytes r a -> 0 <= r.
Proof.
  intros [(c & -> & -> & _)|(? & _)]; [|lia]. apply byteval_range.
Qed.

Lemma next_exact (l : lexer) :
  wf l ->
  next l = (first_rune (rest l),
            mkLexer (input l) (start l) (pos l + peekw (rest l))
                    (peekw (rest l))).
Proof.
  intros Hl. rewrite next_rest by done. destruct (rest l) as [|c s].
  - simpl. unfold set_width. do 2 f_equal. lia.
  - unfold first_rune, peekw. by destruct (DecodeRuneInString (String c s)).
Qed.

Lemma first_rune_ascii (c : ascii) (s : string) :
  byteval c < 0x80 -> first_rune (String c s) = byteval c.
Proof. intros Hc. unfold first_rune. by rewrite DecodeRune_ascii. Qed.

Lemma peekw_ascii (c : ascii) (s : string) :
  byteval c < 0x80 -> peekw (String c s) = 1.
Proof. intros Hc. unfold peekw. by rewrite DecodeRune_ascii. Qed.

Lemma first_rune_high (c : ascii) (s : string) :
  0x80 <= byteval c -> 0x80 <= first_rune (String c s).
Proof.
  intros Hc. unfold first_rune.
  destruct (DecodeRune_high c s Hc) as (r & a & b & -> & _ & _ & Hr & _).
  exact Hr.
Qed.

(** The bytes that [peekw] counts are a prefix of the string. *)
Lemma peekw_split (s : string) :
  exists a b, s = a +:+ b /\ len a = peekw s
              /\ (s <> "" -> rune_bytes (first_rune s) a).
Proof.
  destruct s as [|c s]; [by exists "", ""|].
  destruct (Z.lt_ge_cases (byteval c) 0x80) as [Hc|Hc].
  - exists (String c ""), s. rewrite peekw_ascii, first_rune_ascii by done.
    split; [done|]. split; [done|]. intros _. left. by exists c.
  - unfold peekw, first_rune.
    destruct (DecodeRune_high c s Hc) as (r & a & b & -> & E & Ha & Hr & Hh).
    exists a, b. split; [done|]. split; [done|]. intros _. by right.
Qed.

(** *** Character sets *)

Lemma span_spec (P : ascii -> bool) (s : string) :
  s = fst (span P s) +:+ snd (span P s)
  /\ all P (fst (span P s)) = true
  /\ starts P (snd (span P s)) = false.
Proof.
  induction s as [|c s (IH1 & IH2 & IH3)]; [done|]. simpl.
  destruct (P c) eqn:Hc; [|simpl; by rewrite Hc].
  destruct (span P s) as [a b]. simpl in *.
  rewrite str_app_cons, <- IH1, Hc. done.
Qed.

Lemma span_unique (P : ascii -> bool) (a b : string) :
  all P a = true -> starts P b = false -> span P (a +:+ b) = (a, b).
Proof.
  intros Ha Hb. induction a as [|c a IH].
  - rewrite str_app_nil_l. destruct b as [|c b]; [done|].
    simpl in *. by rewrite Hb.
  - simpl in Ha. apply andb_prop in Ha as [Hc Ha].
    rewrite str_app_cons. simpl. by rewrite Hc, IH.
Qed.

Lemma IndexRune_from_ascii (valid : string) :
  ascii_only valid ->
  forall (i : Z) (r : rune), 0 <= i ->
    (0 <=? strings.IndexRune_from i 0 valid r)
    = existsb (fun c => byteval c =? r) (bytes valid).
Proof.
  induction valid as [|c v IH]; intros Hv i r Hi; [done|].
  apply Forall_cons in Hv as [Hc Hv]. simpl strings.IndexRune_from.
  rewrite DecodeRune_ascii by done. simpl existsb.
  destruct (Z.eqb_spec (byteval c) r) as [E|Hne].
  - simpl. by apply Z.leb_le.
  - simpl. apply IH; [done | lia].
Qed.

(** The test [strings.IndexRune(valid, r) >= 0] on the rune that starts
    [s] is membership of the first byte of [s]. *)
Lemma IndexRune_first_rune (valid s : string) :
  ascii_only valid ->
  (0 <=? strings.IndexRune valid (first_rune s)) = starts (memb valid) s.
Proof.
  intros Hv. unfold strings.IndexRune.
  rewrite IndexRune_from_ascii by (done || lia).
  assert (Hout : forall r, (r < 0 \/ 0x80 <= r) ->
            existsb (fun c => byteval c =? r) (bytes valid) = false).
  { intros r Hr. apply not_true_is_false. intros Hex.
    apply existsb_exists in Hex as (c & Hin & Hc).
    apply Z.eqb_eq in Hc. unfold ascii_only in Hv.
    rewrite Forall_forall in Hv. apply list_elem_of_In in Hin.
    specialize (Hv c Hin). pose proof (byteval_range c). simpl in Hv. lia. }
  destruct s as [|c s]; simpl starts.
  - apply Hout. left. done.
  - destruct (Z.lt_ge_cases (byteval c) 0x80) as [Hc|Hc].
    + rewrite first_rune_ascii by done. unfold memb. clear Hout Hv.
      induction (bytes valid) as [|d ds IHd]; [done|]. simpl.
      rewrite IHd. f_equal.
      destruct (Ascii.eqb_spec c d) as [->|Hne]; [by apply Z.eqb_eq|].
      apply Z.eqb_neq. intros E. apply byteval_inj in E. congruence.
    + rewrite Hout by (right; by apply first_rune_high).
      symmetry. apply not_true_is_false. intros Hex. unfold memb in Hex.
      apply existsb_exists in Hex as (d & Hin & Hd).
      apply Ascii.eqb_eq in Hd as <-. unfold ascii_only in Hv.
      rewrite Forall_forall in Hv. apply list_elem_of_In in Hin.
      specialize (Hv c Hin). simpl in Hv. lia.
Qed.

(** *** Runs *)

Lemma length_rest_bound (l : lexer) :
  wf l -> (String.length (rest l) < bound l)%nat.
Proof.
  intros Hl. pose proof (len_rest l Hl) as Hr. unfold len, bound, wf in *. lia.
Qed.

Lemma acceptRun_loop_exact (valid : string) :
  ascii_only valid ->
  forall (fuel : nat) (l : lexer),
    wf l -> (String.length (rest l) < fuel)%nat ->
    acceptRun_loop fuel valid l
    = Some (mkLexer (input l) (start l)
              (pos l + len (fst (span (memb valid) (rest l)))
               + peekw (snd (span (memb valid) (rest l))))
              (peekw (snd (span (memb valid) (rest l))))).
Proof.
  intros Hv. induction fuel as [|fuel IH]; intros l Hl Hf; [lia|].
  simpl acceptRun_loop. rewrite next_exact by done.
  rewrite IndexRune_first_rune by done.
  destruct (rest l) as [|c s] eqn:E.
  - simpl. do 2 f_equal. rewrite len_empty. lia.
  - simpl starts. simpl span. destruct (memb valid c) eqn:Hc.
    + assert (Hasc : byteval c < 0x80).
      { unfold memb in Hc. apply existsb_exists in Hc as (d & Hin & Hd).
        apply Ascii.eqb_eq in Hd as <-. unfold ascii_only in Hv.
        rewrite Forall_forall in Hv. apply list_elem_of_In in Hin.
        apply (Hv c Hin). }
      rewrite peekw_ascii by done.
      change (mkLexer (input l) (start l) (pos l + 1) 1)
        with (advance l (String c "") 1).
      rewrite IH.
      * rewrite (rest_advance l (String c "") s) by done.
        destruct (span (memb valid) s) as [a b]. simpl.
        do 2 f_equal. rewrite !len_String, len_empty. lia.
      * by apply (wf_advance l (String c "") s).
      * rewrite (rest_advance l (String c "") s) by done. simpl in Hf. lia.
    + simpl. do 2 f_equal. rewrite len_empty. lia.
Qed.

(** [acceptRun] moves over the longest prefix of the rest that is made of
    bytes of the set. *)
Lemma acceptRun_exact (valid : string) (l : lexer) :
  ascii_only valid -> wf l ->
  acceptRun valid l
  = Some (advance l (fst (span (memb valid) (rest l)))
                  (peekw (snd (span (memb valid) (rest l))))).
Proof.
  intros Hv Hl. unfold acceptRun.
  rewrite (acceptRun_loop_exact valid Hv) by (done || by apply length_rest_bound).
  simpl. unfold backup, advance, set_pos. simpl. do 2 f_equal. lia.
Qed.

Lemma accept_exact (valid : string) (l : lexer) :
  ascii_only valid -> wf l ->
  accept valid l
  = if starts (memb valid) (rest l)
    then (true, mkLexer (input l) (start l) (pos l + 1) 1)
    else (false, mkLexer (input l) (start l) (pos l) (peekw (rest l))).
Proof.
  intros Hv Hl. unfold accept. rewrite next_exact by done.
  rewrite IndexRune_first_rune by done.
  destruct (starts (memb valid) (rest l)) eqn:Hs.
  - destruct (rest l) as [|c s]; [done|]. simpl in Hs.
    assert (Hasc : byteval c < 0x80).
    { unfold memb in Hs. apply existsb_exists in Hs as (d & Hin & Hd).
      apply Ascii.eqb_eq in Hd as <-. unfold ascii_only in Hv.
      rewrite Forall_forall in Hv. apply list_elem_of_In in Hin.
      apply (Hv c Hin). }
    by rewrite peekw_ascii.
  - unfold backup, set_pos. simpl. do 2 f_equal. lia.
Qed.

(** *** Folding whitespace *)

Lemma WSP_ascii : ascii_only WSP.
Proof. repeat constructor. Qed.

Lemma tagChars_ascii : ascii_only tagChars.
Proof. unfold ascii_only. apply Forall_forall. intros c Hc.
  apply list_elem_of_In in Hc. simpl in Hc.
  repeat (destruct Hc as [<-|Hc]; [done|]). done.
Qed.

Lemma HasPrefix_CRLF (s : string) :
  HasPrefix s CRLF
  = match s with
    | String c1 (String c2 _) => Ascii.eqb c1 CR && Ascii.eqb c2 LF
    | _ => false
    end.
Proof.
  assert (Hcons : forall a s1 b s2, String.prefix (String a s1) (String b s2)
            = if ascii_dec a b then String.prefix s1 s2 else false)
    by reflexivity.
  assert (Hnil : forall s1, String.prefix "" s1 = true) by (by intros []).
  unfold HasPrefix, CRLF. destruct s as [|c1 [|c2 s]]; [done| |].
  - rewrite Hcons. destruct (ascii_dec CR c1) as [<-|]; [done|].
    destruct (Ascii.eqb_spec c1 CR); [congruence | done].
  - rewrite !Hcons, Hnil.
    destruct (Ascii.eqb_spec c1 CR) as [->|N1];
      destruct (Ascii.eqb_spec c2 LF) as [->|N2];
      repeat (match goal with |- context [ascii_dec ?a ?b] =>
                destruct (ascii_dec a b) end); simpl; congruence.
Qed.

Lemma acceptOptionalFws_unfold (l : lexer) :
  acceptOptionalFws l
  = match acceptRun WSP l with
    | None => Unfinished
    | Some l1 =>
        if HasPrefix (rest l1) CRLF then
          let l2 := set_pos l1 (pos l1 + 2) in
          let '(ok, l3) := accept WSP l2 in
          if ok then of_loop (acceptRun WSP l3) else Err malformed
        else Ret l1
    end.
Proof. unfold acceptOptionalFws. by destruct (acceptRun WSP l). Qed.

Lemma acceptOptionalFws_exact (l : lexer) :
  wf l ->
  acceptOptionalFws l
  = match scan_fws (rest l) with
    | Some (w, r) => Ret (advance l w (peekw r))
    | None => Err malformed
    end.
Proof.
  intros Hl. rewrite acceptOptionalFws_unfold. unfold scan_fws.
  rewrite (acceptRun_exact WSP l WSP_ascii Hl).
  destruct (span_spec isWSP (rest l)) as (E1 & A1 & S1).
  change (memb WSP) with isWSP.
  destruct (span isWSP (rest l)) as [w1 s1]. simpl in E1, A1, S1.
  simpl fst. simpl snd.
  assert (Hl1 : wf (advance l w1 (peekw s1))) by (by eapply wf_advance).
  assert (R1 : rest (advance l w1 (peekw s1)) = s1) by (by eapply rest_advance).
  rewrite R1, HasPrefix_CRLF.
  destruct s1 as [|c1 [|c2 s2]]; try done.
  destruct (Ascii.eqb c1 CR && Ascii.eqb c2 LF) eqn:Hcrlf; [|done].
  apply andb_prop in Hcrlf as [H1 H2].
  apply Ascii.eqb_eq in H1 as ->. apply Ascii.eqb_eq in H2 as ->.
  set (l1 := advance l w1 (peekw (String CR (String LF s2)))) in *.
  cbv zeta.
  change (set_pos l1 (pos l1 + 2)) with (advance l1 CRLF (width l1)).
  assert (Hl2 : wf (advance l1 CRLF (width l1)))
    by (by apply (wf_advance l1 CRLF s2)).
  assert (R2 : rest (advance l1 CRLF (width l1)) = s2)
    by (by apply (rest_advance l1 CRLF s2)).
  rewrite (accept_exact WSP _ WSP_ascii Hl2), R2. change (memb WSP) with isWSP.
  destruct (starts isWSP s2) eqn:Hs2; [|done].
  destruct s2 as [|c s3]; [done|]. simpl in Hs2.
  set (l2 := advance l1 CRLF (width l1)) in *.
  change (mkLexer (input l2) (start l2) (pos l2 + 1) 1)
    with (advance l2 (String c "") 1).
  assert (Hl3 : wf (advance l2 (String c "") 1))
    by (by apply (wf_advance l2 (String c "") s3)).
  assert (R3 : rest (advance l2 (String c "") 1) = s3)
    by (by apply (rest_advance l2 (String c "") s3)).
  rewrite (acceptRun_exact WSP _ WSP_ascii Hl3), R3. change (memb WSP) with isWSP.
  simpl span. rewrite Hs2. destruct (span isWSP s3) as [w2 s4]. simpl.
  unfold advance. simpl. do 2 f_equal.
  rewrite !len_app, !len_String, len_empty.
  change (len CRLF) with 2. lia.
Qed.


Lemma scan_fws_Some (s w r : string) :
  scan_fws s = Some (w, r) ->
  s = w +:+ r /\ ofws w /\ starts isWSP r = false.
Proof.
  unfold scan_fws. destruct (span_spec isWSP s) as (E1 & A1 & S1).
  destruct (span isWSP s) as [w1 s1]. simpl in E1, A1, S1.
  assert (Hplain : Some (w1, s1) = Some (w, r) ->
            s = w +:+ r /\ ofws w /\ starts isWSP r = false).
  { intros [= <- <-]. split; [done|]. split; [by constructor | done]. }
  destruct s1 as [|c1 [|c2 s2]]; try exact Hplain.
  destruct (Ascii.eqb c1 CR && Ascii.eqb c2 LF) eqn:Hcrlf; [|exact Hplain].
  apply andb_prop in Hcrlf as [H1 H2].
  apply Ascii.eqb_eq in H1 as ->. apply Ascii.eqb_eq in H2 as ->.
  destruct (starts isWSP s2) eqn:Hs2; [|done].
  destruct (span_spec isWSP s2) as (E2 & A2 & S2).
  destruct (span isWSP s2) as [w2 s3]. simpl in E2, A2, S2.
  intros [= <- <-]. split; [|split; [|done]].
  - rewrite E1, E2, !str_app_assoc. done.
  - apply ofws_fold; try done. intros ->. rewrite str_app_nil_l in E2.
    subst s3. congruence.
Qed.

Lemma scan_fws_None (s : string) :
  scan_fws s = None <->
  exists w r, s = w +:+ CRLF +:+ r /\ all isWSP w = true
              /\ starts isWSP r = false.
Proof.
  split.
  - unfold scan_fws. destruct (span_spec isWSP s) as (E1 & A1 & S1).
    destruct (span isWSP s) as [w1 s1]. simpl in E1, A1, S1.
    destruct s1 as [|c1 [|c2 s2]]; try done.
    destruct (Ascii.eqb c1 CR && Ascii.eqb c2 LF) eqn:Hcrlf; [|done].
    apply andb_prop in Hcrlf as [H1 H2].
    apply Ascii.eqb_eq in H1 as ->. apply Ascii.eqb_eq in H2 as ->.
    destruct (starts isWSP s2) eqn:Hs2.
    + by destruct (span isWSP s2).
    + intros _. by exists w1, s2.
  - intros (w & r & -> & Hw & Hr). unfold scan_fws.
    rewrite (span_unique isWSP w (CRLF +:+ r)) by done.
    change (CRLF +:+ r) with (String CR (String LF r)).
    change (Ascii.eqb CR CR && Ascii.eqb LF LF) with true. cbv iota.
    by rewrite Hr.
Qed.

(** Where no space, tab or CR follows, there is no folding whitespace. *)
Lemma scan_fws_none_here (s : string) :
  starts (fun c => isWSP c || Ascii.eqb c CR) s = false ->
  scan_fws s = Some ("", s).
Proof.
  intros Hs. unfold scan_fws. destruct s as [|c s]; [done|].
  simpl in Hs. apply orb_false_elim in Hs as [Hw Hcr].
  simpl. rewrite Hw. destruct s as [|c2 s]; [done|]. by rewrite Hcr.
Qed.

Lemma first_rune_nonneg (s : string) : s <> "" -> 0 <= first_rune s.
Proof.
  intros Hs. destruct (peekw_split s) as (a & b & _ & _ & Hr).
  eapply rune_bytes_nonneg. by apply Hr.
Qed.

Lemma first_rune_eof (s : string) : first_rune s = eof -> s = "".
Proof.
  intros E. destruct s as [|c s]; [done|].
  pose proof (first_rune_nonneg (String c s)) as H. unfold eof in E.
  rewrite E in H. by specialize (H ltac:(done)).
Qed.

(** A rune below [RuneSelf] is the first byte of the string. *)
Lemma first_rune_low (s : string) (r : rune) :
  first_rune s = r -> 0 <= r < 0x80 ->
  exists c s', s = String c s' /\ byteval c = r /\ peekw s = 1.
Proof.
  intros E Hr. destruct s as [|c s]; [unfold first_rune, eof in E; lia|].
  destruct (Z.lt_ge_cases (byteval c) 0x80) as [Hc|Hc].
  - exists c, s. rewrite first_rune_ascii in E by done.
    by rewrite peekw_ascii.
  - pose proof (first_rune_high c s Hc). lia.
Qed.

(** ** Facts on the parser *)

Lemma value_loop_S (fuel : nat) (l : lexer) (item : Item) (items : list Item) :
  value_loop (S fuel) l item items
  = let '(r, l1) := next l in
    if isValueChar r then value_loop fuel l1 item items
    else
      match acceptOptionalFws (backup l1) with
      | Ret l3 =>
          let '(r', l4) := next l3 in
          if (r' =? eof) || (r' =? rune_of ";") then
            Ret (l4, items ++ [mkItem (Tag item)
                                 (slice (input l4) (start l4) (pos (backup l1)))
                                 (TagPos item) (start l4)])
          else value_loop fuel l4 item items
      | Err e => Err e
      | Unfinished => Unfinished
      end.
Proof.
  simpl. destruct (next l) as [r l1]. destruct (isValueChar r); [done|].
  unfold mbind, outcome_bind.
  destruct (acceptOptionalFws (backup l1)) as [l3| |]; done.
Qed.

Lemma isValueChar_range (r : rune) :
  isValueChar r = true -> 0x21 <= r < 0x7F /\ r <> 0x3B.
Proof.
  unfold isValueChar, rune_of. intros H.
  apply andb_prop in H as [H H3]. apply andb_prop in H as [H1 H2].
  apply negb_true_iff, Z.eqb_neq in H1. apply Z.leb_le in H2, H3.
  change (byteval "!") with 0x21 in H2. change (byteval "~") with 0x7E in H3.
  change (byteval ";") with 0x3B in H1. lia.
Qed.

Lemma backup_next (l : lexer) (w : Z) :
  backup (mkLexer (input l) (start l) (pos l + w) w)
  = mkLexer (input l) (start l) (pos l) w.
Proof. unfold backup, set_pos. simpl. f_equal. lia. Qed.

Lemma last_byte_app (a v : string) :
  last_byte (a +:+ v)
  = match last_byte v with
    | Some c => Some c
    | None => last_byte a
    end.
Proof.
  induction a as [|x a IH].
  - rewrite str_app_nil_l. by destruct (last_byte v).
  - rewrite str_app_cons. simpl. rewrite IH.
    by destruct (last_byte v), (last_byte a).
Qed.

Lemma last_byte_None (v : string) : last_byte v = None -> v = "".
Proof. destruct v as [|c v]; [done|]. simpl. by destruct (last_byte v). Qed.

Lemma last_not_wsp_app (a v : string) :
  last_not_wsp v -> (v = "" -> last_not_wsp a) -> last_not_wsp (a +:+ v).
Proof.
  unfold last_not_wsp. rewrite last_byte_app. intros Hv Ha.
  destruct (last_byte v) eqn:E; [done|]. apply Ha. by apply last_byte_None.
Qed.

Lemma isWSP_byteval (c : ascii) :
  isWSP c = true -> byteval c = 0x20 \/ byteval c = 0x09.
Proof.
  unfold isWSP, memb. simpl. intros Hw.
  apply orb_prop in Hw as [Hw|Hw].
  - apply Ascii.eqb_eq in Hw as ->. by left.
  - apply orb_prop in Hw as [Hw|Hw]; [|done].
    apply Ascii.eqb_eq in Hw as ->. by right.
Qed.

Lemma last_not_wsp_high (a : string) : high a -> last_not_wsp a.
Proof.
  unfold last_not_wsp, high. induction a as [|c a IH]; [done|].
  intros H. apply Forall_cons in H as [Hc Ha]. simpl.
  destruct (last_byte a) eqn:E; [by apply IH|].
  destruct (isWSP c) eqn:Hw; [|done].
  apply isWSP_byteval in Hw. lia.
Qed.

Lemma all_app (P : ascii -> bool) (a b : string) :
  all P (a +:+ b) = all P a && all P b.
Proof.
  induction a as [|c a IH]; [done|].
  rewrite str_app_cons. simpl. by rewrite IH, andb_assoc.
Qed.

Lemma all_impl (P Q : ascii -> bool) (s : string) :
  (forall c, P c = true -> Q c = true) -> all P s = true -> all Q s = true.
Proof.
  intros HPQ. induction s as [|c s IH]; [done|]. simpl. intros H.
  apply andb_prop in H as [Hc Hs]. by rewrite (HPQ c Hc), IH.
Qed.

Lemma ofws_no_semi (w : string) : ofws w -> all notSemi w = true.
Proof.
  assert (Hwsp : forall c, isWSP c = true -> notSemi c = true).
  { intros c Hc. apply isWSP_byteval in Hc. unfold notSemi.
    apply negb_true_iff, Ascii.eqb_neq. intros ->. by destruct Hc. }
  intros [w' Hw|w1 w2 H1 H2 _].
  - by apply (all_impl isWSP).
  - rewrite !all_app, (all_impl isWSP notSemi w1), (all_impl isWSP notSemi w2);
      done.
Qed.

Lemma high_no_semi (a : string) : high a -> all notSemi a = true.
Proof.
  unfold high. induction a as [|c a IH]; [done|]. intros H.
  apply Forall_cons in H as [Hc Ha]. simpl. rewrite IH by done.
  rewrite andb_true_r. unfold notSemi. apply negb_true_iff, Ascii.eqb_neq.
  intros ->. done.
Qed.

Lemma item_eq (items : list Item) (tag inp : string) (tp st p q : Z) :
  p = q ->
  items ++ [mkItem tag (slice inp st p) tp st]
  = items ++ [mkItem tag (slice inp st q) tp st].
Proof. by intros ->. Qed.

Lemma value_loop_spec (fuel : nat) :
  forall (l : lexer) (item : Item) (items : list Item),
    wf l -> (String.length (rest l) < fuel)%nat ->
    (value_loop fuel l item items = Err malformed /\ bad_fold (rest l))
    \/ (exists res, value_loop fuel l item items = Ret res
                    /\ value_done l item items res).
Proof.
  induction fuel as [|fuel IH]; intros l item items Hl Hf; [lia|].
  rewrite value_loop_S, next_exact by done.
  destruct (isValueChar (first_rune (rest l))) eqn:Hv.
  - (* a value character *)
    apply isValueChar_range in Hv as [Hr Hsemi].
    destruct (first_rune_low (rest l) _ eq_refl ltac:(lia))
      as (c & s & E & Hc & Hw).
    rewrite Hw.
    change (mkLexer (input l) (start l) (pos l + 1) 1)
      with (advance l (String c "") 1).
    assert (Hl1 : wf (advance l (String c "") 1))
      by (by apply (wf_advance l (String c "") s)).
    assert (R1 : rest (advance l (String c "") 1) = s)
      by (by apply (rest_advance l (String c "") s)).
    destruct (IH (advance l (String c "") 1) item items Hl1) as
      [[-> Hbad]|(res & -> & Hres)].
    + rewrite R1. rewrite E in Hf. simpl in Hf. lia.
    + left. split; [done|]. rewrite R1 in Hbad.
      destruct Hbad as (pre & r & -> & Hr0).
      exists (String c pre), r. by rewrite E.
    + right. exists res. split; [done|].
      destruct Hres as (v & w & t & Hi & Hrest & Hw0 & Ht & Hlast & Hns & Hwf & Hin & Hst & Hpos).
      exists (String c v), w, t. simpl in Hi, Hin, Hpos.
      rewrite R1 in Hrest.
      split; [rewrite Hi; apply item_eq; rewrite !len_String, len_empty; lia|].
      split; [by rewrite E, Hrest|]. split; [done|]. split; [done|].
      split.
      { change (String c v) with (String c "" +:+ v).
        apply last_not_wsp_app; [done|]. intros _.
        unfold last_not_wsp. simpl.
        rewrite <- Hc in Hr.
        destruct (isWSP c) eqn:Hwc; [|done].
        apply isWSP_byteval in Hwc. lia. }
      split.
      { simpl. rewrite Hns, andb_true_r. apply negb_true_iff.
        apply Ascii.eqb_neq. intros ->. by apply Hsemi. }
      split; [done|]. split; [done|]. split; [done|].
      rewrite Hpos, !len_String, len_empty. lia.
  - (* not a value character: the value may end here *)
    rewrite backup_next.
    set (l2 := mkLexer (input l) (start l) (pos l) (peekw (rest l))).
    assert (Hl2 : wf l2) by done.
    assert (R2 : rest l2 = rest l) by done.
    rewrite (acceptOptionalFws_exact l2 Hl2), R2.
    destruct (scan_fws (rest l)) as [[w r0]|] eqn:Hscan.
    2:{ left. split; [done|]. apply scan_fws_None in Hscan as (w & r & E & _ & Hr).
        exists w, r. done. }
    apply scan_fws_Some in Hscan as (E & Hw & Hs0).
    set (l3 := advance l2 w (peekw r0)).
    assert (Hl3 : wf l3)
      by (apply (wf_advance l2 w r0); [done | by rewrite R2]).
    assert (R3 : rest l3 = r0)
      by (apply (rest_advance l2 w r0); [done | by rewrite R2]).
    assert (F3 : input l3 = input l /\ start l3 = start l
                 /\ pos l3 = pos l + len w) by done.
    destruct F3 as (I3 & S3 & P3). clearbody l3.
    rewrite next_exact, R3 by done.
    destruct ((first_rune r0 =? eof) || (first_rune r0 =? rune_of ";")) eqn:Hend.
    + (* the end of the value *)
      right. eexists. split; [reflexivity|].
      exists "", w. apply orb_prop in Hend as [Heof|Hsemi].
      * apply Z.eqb_eq, first_rune_eof in Heof. rewrite Heof in *. clear Heof.
        set (l4 := mkLexer (input l3) (start l3) (pos l3 + peekw "") (peekw "")).
        assert (R4 : rest l4 = "")
          by (apply (rest_advance l3 "" "" 0); [done | by rewrite R3]).
        assert (Hl4 : wf l4)
          by (apply (wf_advance l3 "" "" 0); [done | by rewrite R3]).
        exists "". cbn [fst snd]. rewrite R4.
        change (input l4) with (input l3). change (start l4) with (start l3).
        change (pos l4) with (pos l3 + 0). rewrite I3, S3, P3.
        change (pos l2) with (pos l).
        split; [apply item_eq; rewrite len_empty; lia|].
        split; [by rewrite E, !str_app_nil_r|].
        split; [done|]. split; [by right|]. split; [done|]. split; [done|].
        split; [done|]. split; [done|]. split; [done|].
        rewrite !len_empty. lia.
      * apply Z.eqb_eq in Hsemi.
        destruct (first_rune_low r0 _ Hsemi ltac:(done)) as (c & s & -> & Hc & Hpw).
        apply byteval_inj in Hc. subst c. rewrite Hpw.
        set (l4 := mkLexer (input l3) (start l3) (pos l3 + 1) 1).
        assert (R4 : rest l4 = s)
          by (apply (rest_advance l3 ";" s 1); [done | by rewrite R3]).
        assert (Hl4 : wf l4)
          by (apply (wf_advance l3 ";" s 1); [done | by rewrite R3]).
        exists ";". cbn [fst snd]. rewrite R4.
        change (input l4) with (input l3). change (start l4) with (start l3).
        change (pos l4) with (pos l3 + 1). rewrite I3, S3, P3.
        change (pos l2) with (pos l).
        split; [apply item_eq; rewrite len_empty; lia|].
        split; [by rewrite E|].
        split; [done|]. split; [by left|]. split; [done|]. split; [done|].
        split; [done|]. split; [done|]. split; [done|].
        rewrite !len_empty. change (len ";") with 1. lia.
    + (* the whitespace was inside the value *)
      apply orb_false_elim in Hend as [Hneof Hnsemi].
      apply Z.eqb_neq in Hneof, Hnsemi.
      assert (Hr0 : r0 <> "") by (intros ->; by apply Hneof).
      destruct (peekw_split r0) as (a & b & Eab & La & Hrb).
      specialize (Hrb Hr0). rewrite <- La.
      change (mkLexer (input l3) (start l3) (pos l3 + len a) (len a))
        with (advance l3 a (len a)).
      assert (Hl4 : wf (advance l3 a (len a)))
        by (apply (wf_advance l3 a b); [done | by rewrite R3]).
      assert (R4 : rest (advance l3 a (len a)) = b)
        by (apply (rest_advance l3 a b); [done | by rewrite R3]).
      pose proof (rune_bytes_nonempty _ _ Hrb) as Hlen.
      destruct (IH (advance l3 a (len a)) item items Hl4) as
        [[-> Hbad]|(res & -> & Hres)].
      * rewrite R4. apply (f_equal len) in E. rewrite Eab, !len_app in E.
        unfold len in *. pose proof (len_nonneg w). unfold len in *. lia.
      * left. split; [done|]. rewrite R4 in Hbad.
        destruct Hbad as (pre & r & -> & Hr1).
        exists (w +:+ a +:+ pre), r. by rewrite E, Eab, !str_app_assoc.
      * right. exists res. split; [done|].
        destruct Hres as (v & w' & t & Hi & Hrest & Hw0 & Ht & Hlast & Hns & Hwf & Hin & Hst & Hpos).
        exists (w +:+ a +:+ v), w', t. simpl in Hi, Hin, Hpos.
        rewrite R4 in Hrest.
        rewrite I3, S3, P3 in Hi. rewrite I3 in Hin. rewrite P3 in Hpos.
        simpl in Hst. rewrite S3 in Hst.
        split; [rewrite Hi; apply item_eq; rewrite !len_app; lia|].
        split; [by rewrite E, Eab, Hrest, !str_app_assoc|].
        split; [done|]. split; [done|].
        split.
        { rewrite <- str_app_assoc. apply last_not_wsp_app; [done|].
          intros _. apply last_not_wsp_app.
          - destruct Hrb as [(c & -> & Hc & Hlow)|(_ & _ & Hh)].
            + unfold last_not_wsp. simpl. rewrite Eab in Hs0. done.
            + by apply last_not_wsp_high.
          - intros ->. destruct Hrb as [(c & [=] & _)|(_ & Hne & _)]; done. }
        split.
        { rewrite !all_app, Hns, andb_true_r. apply andb_true_intro. split.
          - by apply ofws_no_semi.
          - destruct Hrb as [(c & -> & Hc & Hlow)|(_ & _ & Hh)].
            + simpl. rewrite andb_true_r. apply negb_true_iff.
              apply Ascii.eqb_neq. intros ->. by apply Hnsemi.
            + by apply high_no_semi. }
        split; [done|]. split; [done|]. split; [done|].
        rewrite Hpos, !len_app. lia.
Qed.

Lemma lex_at_advance (l : lexer) (inp : string) (st p : Z) (a b : string) (w : Z) :
  lex_at l inp st p (a +:+ b) -> lex_at (advance l a w) inp st (p + len a) b.
Proof.
  intros (I & S & P & R & W). unfold lex_at. simpl. rewrite I, S, P.
  split; [done|]. split; [done|]. split; [done|].
  split; [by apply (rest_advance l a b) | by apply (wf_advance l a b)].
Qed.

Lemma next_at (l : lexer) (inp : string) (st p : Z) (s : string) :
  lex_at l inp st p s ->
  exists l' a b,
    next l = (first_rune s, l') /\ s = a +:+ b /\ len a = peekw s
    /\ lex_at l' inp st (p + len a) b
    /\ (s <> "" -> rune_bytes (first_rune s) a).
Proof.
  intros Hat. pose proof Hat as (I & S & P & R & W).
  destruct (peekw_split s) as (a & b & E & La & Hr).
  exists (advance l a (len a)), a, b. rewrite next_exact, R by done.
  split; [by rewrite <- La|]. split; [done|]. split; [done|].
  split; [|done]. apply lex_at_advance. by rewrite <- E.
Qed.

Lemma acceptOptionalFws_at (l : lexer) (inp : string) (st p : Z) (s : string) :
  lex_at l inp st p s ->
  match scan_fws s with
  | Some (w, r) =>
      exists l', acceptOptionalFws l = Ret l' /\ s = w +:+ r /\ ofws w
                 /\ starts isWSP r = false /\ lex_at l' inp st (p + len w) r
  | None => acceptOptionalFws l = Err malformed /\ bad_fold s
  end.
Proof.
  intros Hat. pose proof Hat as (I & S & P & R & W).
  rewrite acceptOptionalFws_exact, R by done.
  destruct (scan_fws s) as [[w r]|] eqn:Hscan.
  - apply scan_fws_Some in Hscan as (E & Hw & Hs).
    exists (advance l w (peekw r)). split; [done|]. split; [done|].
    split; [done|]. split; [done|]. apply lex_at_advance. by rewrite <- E.
  - split; [done|]. apply scan_fws_None in Hscan as (w & r & E & _ & Hr).
    by exists w, r.
Qed.

Lemma skipOptionalFws_at (l : lexer) (inp : string) (st p : Z) (s : string) :
  lex_at l inp st p s ->
  match scan_fws s with
  | Some (w, r) =>
      exists l', skipOptionalFws l = Ret l' /\ s = w +:+ r /\ ofws w
                 /\ starts isWSP r = false
                 /\ lex_at l' inp (p + len w) (p + len w) r
  | None => skipOptionalFws l = Err malformed /\ bad_fold s
  end.
Proof.
  intros Hat. pose proof (acceptOptionalFws_at l inp st p s Hat) as H.
  unfold skipOptionalFws. destruct (scan_fws s) as [[w r]|].
  - destruct H as (l' & -> & E & Hw & Hs & (I & S & P & R & W)).
    exists (ignore l'). split; [done|]. split; [done|]. split; [done|].
    split; [done|]. unfold lex_at, ignore, rest, wf in *. simpl. done.
  - destruct H as [-> Hbad]. done.
Qed.

Lemma acceptTagRun_at (l : lexer) (inp : string) (st p : Z) (s : string) :
  lex_at l inp st p s ->
  exists l', acceptTagRun l = Some l'
             /\ lex_at l' inp st (p + len (fst (span isTagChar s)))
                       (snd (span isTagChar s)).
Proof.
  intros Hat. pose proof Hat as (I & S & P & R & W).
  unfold acceptTagRun. rewrite (acceptRun_exact tagChars l tagChars_ascii W), R.
  eexists. split; [reflexivity|]. apply lex_at_advance.
  by rewrite <- (proj1 (span_spec isTagChar s)).
Qed.

Lemma value_loop_at (l : lexer) (inp : string) (p : Z) (s : string)
    (item : Item) (items : list Item) :
  lex_at l inp p p s ->
  (value_loop (bound l) l item items = Err malformed /\ bad_fold s)
  \/ (exists l' v w t s',
        value_loop (bound l) l item items
        = Ret (l', items ++ [mkItem (Tag item) v (TagPos item) p])
        /\ s = v +:+ w +:+ t +:+ s' /\ ofws w /\ term_ok t s'
        /\ last_not_wsp v /\ all notSemi v = true
        /\ lex_at l' inp p (p + len v + len w + len t) s').
Proof.
  intros (I & S & P & R & W).
  destruct (value_loop_spec (bound l) l item items W (length_rest_bound l W))
    as [[E Hbad]|([l' res] & E & Hdone)].
  - left. by rewrite <- R.
  - right. destruct Hdone
      as (v & w & t & Hi & Hrest & Hw & Ht & Hlast & Hns & Hwf & Hin & Hst & Hpos).
    cbn [fst snd] in Hi, Hrest, Ht, Hwf, Hin, Hst, Hpos.
    exists l', v, w, t, (rest l').
    rewrite E, Hi, S, P, I.
    assert (Hv : slice inp p (p + len v) = v).
    { apply (slice_app inp v (w +:+ t +:+ rest l')); [unfold wf in W; lia|].
      unfold rest in R. by rewrite <- I, <- P, R, <- Hrest. }
    rewrite Hv. split; [done|]. split; [by rewrite <- R|].
    split; [done|]. split; [done|]. split; [done|]. split; [done|].
    unfold lex_at. rewrite Hin, Hst, Hpos, I, S, P. done.
Qed.

(** *** The tag-list that a successful parse has read *)

Lemma NewTagValue_loop_S (fuel : nat) (l : lexer) (items : list Item) :
  NewTagValue_loop (S fuel) l items
  = match skipOptionalFws l with
    | Ret l1 =>
        let '(r, l2) := next l1 in
        if r =? eof then Ret items
        else if notAlpha r then Err (expecting_alpha (pos l2))
        else
          match acceptTagRun l2 with
          | Some l3 =>
              let item := mkItem (slice (input l3) (start l3) (pos l3)) ""
                                 (start l3) 0 in
              match skipOptionalFws l3 with
              | Ret l4 =>
                  let '(r', l5) := next l4 in
                  if negb (r' =? rune_of "=") then Err (expecting_eq (pos l5))
                  else
                    match skipOptionalFws l5 with
                    | Ret l6 =>
                        match value_loop (bound l6) l6 item items with
                        | Ret (l7, items') => NewTagValue_loop fuel l7 items'
                        | Err e => Err e
                        | Unfinished => Unfinished
                        end
                    | Err e => Err e
                    | Unfinished => Unfinished
                    end
              | Err e => Err e
              | Unfinished => Unfinished
              end
          | None => Unfinished
          end
    | Err e => Err e
    | Unfinished => Unfinished
    end.
Proof.
  cbn [NewTagValue_loop]. unfold mbind, outcome_bind, bind, of_loop.
  destruct (skipOptionalFws l) as [l1| |]; [|done|done].
  destruct (next l1) as [r l2]. by destruct (acceptTagRun l2).
Qed.

Lemma bad_fold_app (a s : string) : bad_fold s -> bad_fold (a +:+ s).
Proof.
  intros (pre & r & -> & Hr). exists (a +:+ pre), r.
  by rewrite str_app_assoc.
Qed.

Lemma notAlpha_range (r : rune) : notAlpha r = false -> 0 <= r < 0x80.
Proof.
  unfold notAlpha, rune_of.
  change (byteval "a") with 97. change (byteval "z") with 122.
  change (byteval "A") with 65. change (byteval "Z") with 90.
  intros H. apply andb_false_elim in H as [H|H];
    apply orb_false_elim in H as [H1 H2];
    apply Z.ltb_ge in H1, H2; lia.
Qed.

Lemma NewTagValue_loop_spec (fuel : nat) :
  forall (l : lexer) (acc : list Item),
    wf l -> (String.length (rest l) < fuel)%nat ->
    loop_result l acc (NewTagValue_loop fuel l acc).
Proof.
  induction fuel as [|fuel IH]; intros l acc Hl Hf; [lia|].
  rewrite NewTagValue_loop_S.
  assert (Hat : lex_at l (input l) (start l) (pos l) (rest l)) by done.
  set (s0 := rest l) in Hat.
  (* the whitespace before the tag *)
  pose proof (skipOptionalFws_at _ _ _ _ _ Hat) as H0.
  destruct (scan_fws s0) as [[w0 s1]|];
    [|destruct H0 as [-> Hbad]; by left].
  subst s0.
  destruct H0 as (l1 & -> & E0 & Hw0 & _ & Hat1).
  (* the first character of the tag *)
  destruct (next_at _ _ _ _ _ Hat1) as (l2 & a1 & s2 & -> & E1 & La1 & Hat2 & Hr1).
  destruct (Z.eqb_spec (first_rune s1) eof) as [Heof|Hneof].
  { apply first_rune_eof in Heof. exists []. split; [by rewrite app_nil_r|].
    rewrite E0, Heof, str_app_nil_r. by constructor. }
  destruct (notAlpha (first_rune s1)) eqn:Halpha; [right; left; by eexists|].
  destruct (first_rune_low s1 _ eq_refl (notAlpha_range _ Halpha))
    as (c & s2' & Es1 & Hc & Hpw).
  assert (a1 = String c "" /\ s2 = s2') as [-> ->].
  { rewrite Hpw in La1. rewrite Es1 in E1. destruct a1 as [|x [|y a1]].
    - by rewrite len_empty in La1.
    - rewrite str_app_cons, str_app_nil_l in E1. by injection E1 as -> ->.
    - rewrite !len_String in La1. pose proof (len_nonneg a1). lia. }
  clear E1 La1 Hr1.
  (* the rest of the tag *)
  destruct (acceptTagRun_at _ _ _ _ _ Hat2) as (l3 & -> & Hat3).
  destruct (span_spec isTagChar s2') as (E2 & Htag & _).
  destruct (span isTagChar s2') as [run s3]. simpl in E2, Htag, Hat3.
  (* the whitespace before the equals sign *)
  pose proof (skipOptionalFws_at _ _ _ _ _ Hat3) as H3.
  destruct (scan_fws s3) as [[w1 s4]|].
  2:{ destruct H3 as [-> Hbad]. left. split; [done|].
      rewrite E0, Es1, E2. apply bad_fold_app.
      apply (bad_fold_app (String c "")), bad_fold_app, Hbad. }
  destruct H3 as (l4 & -> & E3 & Hw1 & _ & Hat4).
  (* the equals sign *)
  destruct (next_at _ _ _ _ _ Hat4) as (l5 & a2 & s5 & -> & E4 & La2 & Hat5 & Hr2).
  destruct (Z.eqb_spec (first_rune s4) (rune_of "=")) as [Heq|Hneq];
    [|right; right; by eexists].
  simpl negb. cbv iota.
  destruct (first_rune_low s4 _ Heq ltac:(done)) as (c2 & s5' & Es4 & Hc2 & Hpw2).
  apply byteval_inj in Hc2. subst c2.
  assert (a2 = "=" /\ s5 = s5') as [-> ->].
  { rewrite Hpw2 in La2. rewrite Es4 in E4. destruct a2 as [|x [|y a2]].
    - by rewrite len_empty in La2.
    - rewrite str_app_cons, str_app_nil_l in E4. by injection E4 as -> ->.
    - rewrite !len_String in La2. pose proof (len_nonneg a2). lia. }
  clear E4 La2 Hr2.
  (* the whitespace before the value *)
  pose proof (skipOptionalFws_at _ _ _ _ _ Hat5) as H5.
  destruct (scan_fws s5') as [[w2 s6]|].
  2:{ destruct H5 as [-> Hbad]. left. split; [done|].
      rewrite E0, Es1, E2, E3, Es4. apply bad_fold_app.
      apply (bad_fold_app (String c "")), bad_fold_app, bad_fold_app.
      apply (bad_fold_app "="), Hbad. }
  destruct H5 as (l6 & -> & E5 & Hw2 & _ & Hat6).
  (* the value *)
  cbv zeta.
  assert (Etag : slice (input l3) (start l3) (pos l3) = String c run).
  { destruct Hat3 as (-> & -> & -> & _). destruct Hat1 as (I1 & _ & P1 & R1 & W1).
    rewrite <- Z.add_assoc, <- len_app. change (String c "" +:+ run) with (String c run).
    apply (slice_app _ _ s3); [unfold wf in W1; lia|].
    unfold rest in R1. by rewrite <- I1, <- P1, R1, Es1, E2. }
  assert (Est : start l3 = pos l + len w0) by apply Hat3.
  rewrite Etag, Est.
  set (item := mkItem (String c run) "" (pos l + len w0) 0).
  destruct (value_loop_at l6 _ _ _ item acc Hat6)
    as [[-> Hbad]|(l7 & v & w3 & t & s7 & -> & E6 & Hw3 & Ht & Hlast & Hns & Hat7)].
  { left. split; [done|].
    rewrite E0, Es1, E2, E3, Es4, E5. apply bad_fold_app.
    apply (bad_fold_app (String c "")), bad_fold_app, bad_fold_app.
    apply (bad_fold_app "="), bad_fold_app, Hbad. }
  cbn [Tag TagPos item].
  set (p6 := pos l + len w0 + len (String c "") + len run + len w1 + len "="
             + len w2) in *.
  assert (Erest : rest l = tag_spec w0 (String c run) w1 w2 v w3 +:+ t +:+ s7).
  { unfold tag_spec. rewrite E0, Es1, E2, E3, Es4, E5, E6.
    change (String c (run +:+ ?x)) with (String c run +:+ x).
    change (String "=" ?x) with ("=" +:+ x).
    by rewrite !str_app_assoc. }
  assert (Hp6 : p6 = pos l + len (w0 +:+ String c run +:+ w1 +:+ "=" +:+ w2)).
  { unfold p6. rewrite !len_app, !len_String, len_empty. lia. }
  assert (Hp7 : p6 + len v + len w3 + len t
                = pos l + len (tag_spec w0 (String c run) w1 w2 v w3 +:+ t)).
  { unfold p6, tag_spec. rewrite !len_app, !len_String, len_empty. lia. }
  destruct Hat7 as (I7 & S7 & P7 & R7 & W7).
  assert (Hf7 : (String.length (rest l7) < fuel)%nat).
  { apply (f_equal len) in Erest. unfold tag_spec in Erest.
    rewrite R7. rewrite !len_app, !len_String in Erest.
    pose proof (len_nonneg w0). pose proof (len_nonneg run).
    pose proof (len_nonneg w1). pose proof (len_nonneg w2).
    pose proof (len_nonneg v). pose proof (len_nonneg w3).
    pose proof (len_nonneg t). unfold len in *. lia. }
  specialize (IH l7 (acc ++ [mkItem (String c run) v (pos l + len w0) p6]) W7 Hf7).
  destruct (NewTagValue_loop fuel l7 _) as [res|e|]; [| |done].
  - destruct IH as (new & -> & Hnew). eexists. split; [by rewrite <- app_assoc|].
    rewrite Erest, Hp6. rewrite R7, P7, Hp7 in Hnew.
    apply tag_list_spec; try done.
    simpl. rewrite Htag, andb_true_r. unfold isAlpha. by rewrite Hc, Halpha.
  - destruct IH as [[-> Hbad]|IH]; [|by right].
    left. split; [done|]. rewrite Erest, <- str_app_assoc.
    apply bad_fold_app. by rewrite <- R7.
Qed.

(** *** The parser as a whole *)

Lemma NewTagValue_spec (input : string) :
  match NewTagValue input with
  | Ret items => tag_list 0 input items
  | Err e =>
      (e = malformed /\ bad_fold input)
      \/ (exists p, e = expecting_alpha p) \/ (exists p, e = expecting_eq p)
  | Unfinished => False
  end.
Proof.
  unfold NewTagValue. set (l := mkLexer input 0 0 0).
  assert (Hl : wf l) by (unfold wf; simpl; pose proof (len_nonneg input); lia).
  assert (R : rest l = input) by apply slice_from_0.
  pose proof (NewTagValue_loop_spec (S (String.length input)) l [] Hl) as H.
  rewrite R in H. specialize (H ltac:(lia)). unfold loop_result in H.
  rewrite R in H.
  destruct (NewTagValue_loop _ l []) as [res|e|]; [|done|done].
  destruct H as (new & -> & Hnew). done.
Qed.

(** The bound on the loops is never reached: [NewTagValue] returns items or
    an error on every input. *)
Theorem NewTagValue_terminates (input : string) :
  NewTagValue input <> Unfinished.
Proof.
  pose proof (NewTagValue_spec input) as H. intros E. by rewrite E in H.
Qed.

Lemma NewTagValue_sound (input : string) (items : list Item) :
  NewTagValue input = Ret items -> tag_list 0 input items.
Proof. intros E. pose proof (NewTagValue_spec input) as H. by rewrite E in H. Qed.

(** Every error of the parser has one of three messages; the one for a
    malformed fold is the only plain error. *)
Lemma NewTagValue_errors (input : string) (e : error) :
  NewTagValue input = Err e ->
  (e = malformed /\ bad_fold input)
  \/ (exists p, e = expecting_alpha p) \/ (exists p, e = expecting_eq p).
Proof. intros E. pose proof (NewTagValue_spec input) as H. by rewrite E in H. Qed.

Lemma NewMap_terminates (input : string) : NewMap input <> Unfinished.
Proof.
  unfold NewMap, mbind, outcome_bind, bind.
  pose proof (NewTagValue_terminates input).
  by destruct (NewTagValue input).
Qed.

Lemma NewDkimKey_returns (input : string) :
  exists key, NewDkimKey input = Ret key.
Proof.
  unfold NewDkimKey. pose proof (NewMap_terminates input).
  destruct (NewMap input) as [fields|e|]; [by eexists| |done].
  destruct e; by eexists.
Qed.

(** ** The field map *)

Section FieldMap.

Implicit Types (items : list Item) (fields : gmap string Field) (i : Z).

Lemma NewMap_loop_app items1 items2 fields i :
  NewMap_loop i (items1 ++ items2) fields
  = NewMap_loop (i + Z.of_nat (length items1)) items2
                (NewMap_loop i items1 fields).
Proof.
  revert i fields. induction items1 as [|it items1 IH]; intros i fields; simpl.
  - f_equal. lia.
  - rewrite IH. f_equal. lia.
Qed.

(** Items with other tags leave the entry of [tag] alone. *)
Lemma NewMap_loop_other items fields i (tag : string) :
  Forall (fun it => Tag it <> tag) items ->
  NewMap_loop i items fields !! tag = fields !! tag.
Proof.
  revert i fields. induction items as [|it items IH]; intros i fields H; [done|].
  apply Forall_cons in H as [Hit H]. simpl.
  rewrite IH by done. by rewrite lookup_insert_ne.
Qed.

(** A tag that occurs among the items has an entry. *)
Lemma NewMap_loop_seen items fields i (tag : string) :
  Exists (fun it => Tag it = tag) items ->
  is_Some (NewMap_loop i items fields !! tag).
Proof.
  revert i fields. induction items as [|it items IH]; intros i fields H.
  - by apply Exists_nil in H.
  - simpl. destruct (decide (Exists (fun it => Tag it = tag) items)) as [Hex|Hno].
    + by apply IH.
    + apply Exists_cons in H as [<-|H]; [|done].
      apply not_Exists_Forall in Hno; [|intros x; apply _].
      rewrite NewMap_loop_other.
      * rewrite lookup_insert_eq. by eexists.
      * eapply Forall_impl; [exact Hno|]. simpl. done.
Qed.

(** The entry of a tag is built from its last occurrence. *)
Lemma NewMap_loop_last items1 items2 (it : Item) :
  Forall (fun it' => Tag it' <> Tag it) items2 ->
  NewMap_loop 0 (items1 ++ it :: items2) ∅ !! Tag it
  = Some (mkField it (Z.of_nat (length items1))
                  (bool_decide (Exists (fun it' => Tag it' = Tag it) items1))
                  true []).
Proof.
  intros Hlast. rewrite NewMap_loop_app. simpl.
  rewrite NewMap_loop_other by done. rewrite lookup_insert_eq.
  do 2 f_equal. apply bool_decide_ext. split.
  - intros [f Hf]. destruct (decide (Exists (fun it' => Tag it' = Tag it) items1))
      as [|Hno]; [done|].
    apply not_Exists_Forall in Hno; [|intros x; apply _].
    rewrite NewMap_loop_other in Hf; [done|].
    eapply Forall_impl; [exact Hno|]. simpl. done.
  - apply NewMap_loop_seen.
Qed.

End FieldMap.

(** C1. When a tag name occurs more than once among the parsed items, the
    map of [NewMap] holds for it the field of its last occurrence: the
    item of that occurrence (value and positions), its 0-based index among
    all the items, and [Duplicate = true]. *)
Theorem C1_NewMap_keeps_last_occurrence
    (input : string) (items : list Item) (i j : nat) (first last : Item) :
  NewTagValue input = Ret items ->
  items !! i = Some first -> items !! j = Some last -> (i < j)%nat ->
  Tag first = Tag last ->
  (forall k it, (j < k)%nat -> items !! k = Some it -> Tag it <> Tag last) ->
  exists fields,
    NewMap input = Ret fields
    /\ fields !! Tag last = Some (mkField last (Z.of_nat j) true true []).
Proof.
  intros Hparse Hi Hj Hij Htag Hlast.
  unfold NewMap, mbind, outcome_bind, bind. rewrite Hparse.
  eexists. split; [reflexivity|].
  rewrite <- (take_drop_middle items j last Hj).
  rewrite NewMap_loop_last.
  - rewrite length_take_le by (apply lookup_lt_Some in Hj; lia).
    rewrite bool_decide_eq_true_2; [done|].
    apply Exists_exists. exists first. split; [|done].
    apply list_elem_of_lookup. exists i. by rewrite lookup_take_lt.
  - apply Forall_forall. intros it Hit.
    apply list_elem_of_lookup in Hit as [k Hk]. rewrite lookup_drop in Hk.
    apply (Hlast (S j + k)%nat); [lia | done].
Qed.

Lemma C1_witness :
  exists fields,
    NewMap "a=1; b=2; a=3" = Ret fields
    /\ fields !! "a" = Some (mkField (mkItem "a" "3" 10 12) 2 true true []).
Proof.
  apply (C1_NewMap_keeps_last_occurrence "a=1; b=2; a=3"
           [mkItem "a" "1" 0 2; mkItem "b" "2" 5 7; mkItem "a" "3" 10 12]
           0 2 (mkItem "a" "1" 0 2) (mkItem "a" "3" 10 12)).
  - vm_compute. reflexivity.
  - reflexivity.
  - reflexivity.
  - lia.
  - reflexivity.
  - intros k it Hk Hit. destruct k as [|[|[|k]]]; try lia. destruct k; discriminate.
Defined.

(** ** The validator *)

Lemma lookup_delete_all (ks : list string) (fields : gmap string Field) (k : string) :
  fold_left (fun m k => delete k m) ks fields !! k
  = if decide (k ∈ ks) then None else fields !! k.
Proof.
  revert fields. induction ks as [|k' ks IH]; intros fields; cbn [fold_left].
  - destruct (decide (k ∈ [])) as [H|]; [by apply not_elem_of_nil in H | done].
  - rewrite IH.
    destruct (decide (k ∈ ks)) as [Hin|Hnin],
             (decide (k ∈ k' :: ks)) as [Hin'|Hnin']; try done.
    + exfalso. apply Hnin'. by right.
    + apply elem_of_cons in Hin' as [->|?]; [|done]. apply lookup_delete_eq.
    + apply lookup_delete_ne. intros ->. apply Hnin'. by left.
Qed.

(** The key that [NewDkimKey] builds from the fields of a successful
    parse. *)
Lemma NewDkimKey_parsed (input : string) (items : list Item) :
  NewTagValue input = Ret items ->
  exists key,
    NewDkimKey input = Ret key
    /\ DkimKey.Unrecognized key
       = Some (fold_left (fun m k => delete k m) knownTags
                         (NewMap_loop 0 items ∅))
    /\ DkimKey.G key = Fields_at (NewMap_loop 0 items ∅) "g"
    /\ DkimKey.ParseError key = zeroParseError.
Proof.
  intros E. unfold NewDkimKey, NewMap, mbind, outcome_bind, bind. rewrite E.
  eexists. split; [reflexivity|]. done.
Qed.

(** C9. After a successful parse the [Unrecognized] map has no entry for
    any of the eight known tags [v], [g], [h], [k], [n], [p], [s] and [t]
    (and keeps the entry of every other tag). *)
Theorem C9_Unrecognized_excludes_known_tags
    (input : string) (items : list Item) :
  NewTagValue input = Ret items ->
  exists key unrecognized,
    NewDkimKey input = Ret key
    /\ DkimKey.Unrecognized key = Some unrecognized
    /\ unrecognized !! "v" = None /\ unrecognized !! "g" = None
    /\ unrecognized !! "h" = None /\ unrecognized !! "k" = None
    /\ unrecognized !! "n" = None /\ unrecognized !! "p" = None
    /\ unrecognized !! "s" = None /\ unrecognized !! "t" = None
    /\ (forall k, k ∉ ["v"; "g"; "h"; "k"; "n"; "p"; "s"; "t"] ->
          unrecognized !! k = NewMap_loop 0 items ∅ !! k).
Proof.
  intros E. destruct (NewDkimKey_parsed input items E) as (key & Hkey & Hu & _).
  exists key. eexists. split; [done|]. split; [done|].
  assert (Hknown : forall k, k ∈ ["v"; "g"; "h"; "k"; "n"; "p"; "s"; "t"] ->
            fold_left (fun m k => delete k m) knownTags (NewMap_loop 0 items ∅)
              !! k = None).
  { intros k Hk. rewrite lookup_delete_all. by rewrite decide_True. }
  do 8 (split; [apply Hknown; rewrite !elem_of_cons; tauto|]).
  intros k Hk. rewrite lookup_delete_all. by rewrite decide_False.
Qed.

Lemma C9_witness :
  exists key unrecognized,
    NewDkimKey "v=DKIM1; x=1" = Ret key
    /\ DkimKey.Unrecognized key = Some unrecognized
    /\ unrecognized !! "v" = None /\ unrecognized !! "g" = None
    /\ unrecognized !! "h" = None /\ unrecognized !! "k" = None
    /\ unrecognized !! "n" = None /\ unrecognized !! "p" = None
    /\ unrecognized !! "s" = None /\ unrecognized !! "t" = None
    /\ (forall k, k ∉ ["v"; "g"; "h"; "k"; "n"; "p"; "s"; "t"] ->
          unrecognized !! k
          = NewMap_loop 0 [mkItem "v" "DKIM1" 0 2; mkItem "x" "1" 9 11] ∅ !! k).
Proof.
  apply (C9_Unrecognized_excludes_known_tags "v=DKIM1; x=1").
  vm_compute. reflexivity.
Defined.

(** C8. When parsing fails, the key has only its [ParseError] set, with the
    message of the error: the named fields are zero (not defined, no
    annotation) and [Unrecognized] is nil.  Conversely a key whose
    [ParseError] is set comes from a failed parse, so a set [ParseError] and
    populated fields exclude each other. *)
Theorem C8_parse_error_leaves_fields_zero (input : string) (key : DkimKey.t) :
  NewDkimKey input = Ret key ->
  (forall e, NewTagValue input = Err e ->
     key = errorKey (DkimKey.ParseError key)
     /\ Message (DkimKey.ParseError key) = Error e
     /\ DkimKey.ParseError key <> zeroParseError)
  /\ (DkimKey.ParseError key <> zeroParseError ->
      exists e, NewTagValue input = Err e).
Proof.
  intros Hkey. split.
  - intros e E. unfold NewDkimKey, NewMap, mbind, outcome_bind, bind in Hkey.
    rewrite E in Hkey.
    destruct (NewTagValue_errors input e E) as [[-> _]|[[p ->]|[p ->]]];
      injection Hkey as <-; done.
  - intros Hset. pose proof (NewTagValue_terminates input) as Hterm.
    destruct (NewTagValue input) as [items|e|] eqn:E; [|by exists e|done].
    destruct (NewDkimKey_parsed input items E) as (key' & Hkey' & _ & _ & Hpe).
    rewrite Hkey in Hkey'. injection Hkey' as <-. done.
Qed.

Lemma C8_witness :
  (forall e, NewTagValue "v" = Err e ->
     errorKey (mkParseError "expecting '='" 1)
     = errorKey (DkimKey.ParseError (errorKey (mkParseError "expecting '='" 1)))
     /\ Message (DkimKey.ParseError (errorKey (mkParseError "expecting '='" 1)))
        = Error e
     /\ DkimKey.ParseError (errorKey (mkParseError "expecting '='" 1))
        <> zeroParseError)
  /\ (DkimKey.ParseError (errorKey (mkParseError "expecting '='" 1))
      <> zeroParseError ->
      exists e, NewTagValue "v" = Err e).
Proof.
  apply (C8_parse_error_leaves_fields_zero "v"). vm_compute. reflexivity.
Defined.

(** The fields of the map carry no annotation. *)
Lemma NewMap_loop_no_errors (items : list Item) (fields : gmap string Field)
    (i : Z) (k : string) :
  Errors (Fields_at fields k) = [] ->
  Errors (Fields_at (NewMap_loop i items fields) k) = [].
Proof.
  revert i fields. induction items as [|it items IH]; intros i fields H; [done|].
  simpl. apply IH. unfold Fields_at in *.
  destruct (decide (Tag it = k)) as [->|Hne].
  - by rewrite lookup_insert_eq.
  - by rewrite lookup_insert_ne.
Qed.

(** All the annotations of the version and of the granularity are on [V];
    [G] has none. *)
Lemma NewDkimKey_V_G_errors (input : string) (items : list Item) :
  NewTagValue input = Ret items ->
  exists key,
    NewDkimKey input = Ret key
    /\ DkimKey.G key = Fields_at (NewMap_loop 0 items ∅) "g"
    /\ Errors (DkimKey.G key) = []
    /\ Errors (DkimKey.V key)
       = version_errors (Fields_at (NewMap_loop 0 items ∅) "v")
         ++ granularity_errors (DkimKey.G key).
Proof.
  intros E. unfold NewDkimKey, NewMap, mbind, outcome_bind, bind. rewrite E.
  eexists. split; [reflexivity|]. split; [done|].
  assert (HG : Errors (Fields_at (NewMap_loop 0 items ∅) "g") = [])
    by (by apply NewMap_loop_no_errors).
  assert (HV : Errors (Fields_at (NewMap_loop 0 items ∅) "v") = [])
    by (by apply NewMap_loop_no_errors).
  split; [done|]. cbn [DkimKey.V DkimKey.G].
  unfold version_errors, granularity_errors.
  set (V := Fields_at (NewMap_loop 0 items ∅) "v") in *.
  set (G := Fields_at (NewMap_loop 0 items ∅) "g") in *.
  destruct (Defined V), (Defined G), (String.eqb (FValue V) "DKIM1"),
    (Index V =? 0) eqn:Hidx, (String.eqb (FValue G) "*");
    cbn [negb addError addWarning annotate Errors Index]; rewrite ?Hidx;
    cbn [negb addError addWarning annotate Errors Index]; rewrite ?HV;
    reflexivity.
Qed.

Lemma annotate_hash_unknown (H : Field) (algo : string) :
  algo <> "sha256" -> algo <> "sha1" ->
  Errors (annotate_hash H algo)
  = Errors H ++ [mkFieldError msg_unknown_hash "warning"].
Proof.
  intros H1 H2. unfold annotate_hash.
  apply String.eqb_neq in H1, H2. by rewrite H1, H2.
Qed.

(** C3, at the input [g=*]: the warning about the granularity is appended
    to [V]; the field [G] of the key has no annotation. *)
Theorem C3_granularity_warning_lands_on_V :
  exists key,
    NewDkimKey "g=*" = Ret key
    /\ Defined (DkimKey.G key) = true /\ FValue (DkimKey.G key) = "*"
    /\ Errors (DkimKey.G key) = []
    /\ Errors (DkimKey.V key)
       = [mkFieldError msg_version_absent "warning";
          mkFieldError msg_granularity_star "warning"].
Proof.
  assert (E : NewTagValue "g=*" = Ret [mkItem "g" "*" 0 2])
    by (vm_compute; reflexivity).
  destruct (NewDkimKey_V_G_errors _ _ E) as (key & Hkey & HG & HGe & HVe).
  exists key. split; [done|]. rewrite HVe, HG. vm_compute. done.
Qed.

(** C4, at the input [h=md5]: the one warning on [H] has a message that
    does not contain the token. *)
Theorem C4_unknown_hash_message_omits_token :
  exists key,
    NewDkimKey "h=md5" = Ret key
    /\ Errors (DkimKey.H key) = [mkFieldError msg_unknown_hash "warning"]
    /\ Contains msg_unknown_hash "md5" = false.
Proof.
  assert (E : NewTagValue "h=md5" = Ret [mkItem "h" "md5" 0 2])
    by (vm_compute; reflexivity).
  eexists. split.
  { unfold NewDkimKey, NewMap, mbind, outcome_bind, bind. rewrite E. reflexivity. }
  split; vm_compute; reflexivity.
Qed.

(** C6, at the input [v=DKIM1; g=x]: the version is DKIM1 and is the first
    tag, and yet [V] carries a danger annotation, the one of the
    granularity. *)
Theorem C6_version_field_gets_granularity_danger :
  exists key,
    NewDkimKey "v=DKIM1; g=x" = Ret key
    /\ Defined (DkimKey.V key) = true /\ FValue (DkimKey.V key) = "DKIM1"
    /\ Index (DkimKey.V key) = 0
    /\ Errors (DkimKey.V key)
       = [mkFieldError (html_template.HTMLEscapeString msg_granularity_other)
                       "danger"].
Proof.
  assert (E : NewTagValue "v=DKIM1; g=x"
              = Ret [mkItem "v" "DKIM1" 0 2; mkItem "g" "x" 9 11])
    by (vm_compute; reflexivity).
  eexists. split.
  { unfold NewDkimKey, NewMap, mbind, outcome_bind, bind. rewrite E. reflexivity. }
  repeat split; vm_compute; reflexivity.
Qed.

(** ** Re-serialization *)

Lemma render_no_pad (items : list Item) :
  render (map (fun _ => no_pad) items) items = serialize items.
Proof.
  induction items as [|it items IH]; [done|]. simpl. rewrite IH.
  unfold tag_spec. by rewrite !str_app_nil_l, !str_app_assoc, !str_app_nil_l.
Qed.

Lemma no_fold_suffix (a s : string) : no_fold (a +:+ s) -> no_fold s.
Proof.
  intros H x y ->. apply (H (a +:+ x) y). by rewrite str_app_assoc.
Qed.

Lemma ofws_no_fold (s a w b : string) :
  ofws w -> no_fold s -> s = a +:+ w +:+ b -> all isWSP w = true.
Proof.
  intros [w' Hw|w1 w2 _ _ _] Hnf E; [done|]. exfalso.
  apply (Hnf (a +:+ w1) (w2 +:+ b)). by rewrite E, !str_app_assoc.
Qed.

Lemma tag_list_empty (off : Z) (items : list Item) :
  tag_list off "" items -> items = [].
Proof.
  intros H. remember "" as e eqn:E.
  destruct H as [|off w0 tag w1 w2 v w3 t s items _ Htag _ _ _ _ _ _ _]; [done|].
  exfalso. unfold tag_spec in E. apply (f_equal len) in E.
  rewrite !len_app, len_empty in E. destruct tag as [|c tag]; [done|].
  rewrite len_String in E.
  pose proof (len_nonneg w0). pose proof (len_nonneg tag).
  pose proof (len_nonneg w1). pose proof (len_nonneg w2).
  pose proof (len_nonneg v). pose proof (len_nonneg w3).
  pose proof (len_nonneg t). pose proof (len_nonneg s).
  change (len "=") with 1 in E. lia.
Qed.

Lemma tag_list_render (off : Z) (s : string) (items : list Item) :
  tag_list off s items -> no_fold s ->
  exists ps tail,
    length ps = length items /\ Forall pad_wsp ps /\ all isWSP tail = true
    /\ (s = render ps items +:+ tail
        \/ (tail = "" /\ s +:+ ";" = render ps items)).
Proof.
  induction 1 as [off w Hw|off w0 tag w1 w2 v w3 t s items
                    Hw0 Htag Hw1 Hw2 Hw3 Hlast Hns Ht Hrest IH];
    intros Hnf.
  - exists [], w. split; [done|]. split; [done|].
    split; [|by left].
    apply (ofws_no_fold w "" w "" Hw Hnf). by rewrite str_app_nil_r.
  - assert (Hpad : pad_wsp (w0, w1, w2, w3)).
    { unfold tag_spec in Hnf.
      split; [|split; [|split]].
      - eapply (ofws_no_fold _ "" w0); [exact Hw0 | exact Hnf |].
        rewrite !str_app_assoc. reflexivity.
      - eapply (ofws_no_fold _ (w0 +:+ tag) w1); [exact Hw1 | exact Hnf |].
        rewrite !str_app_assoc. reflexivity.
      - eapply (ofws_no_fold _ (w0 +:+ tag +:+ w1 +:+ "=") w2);
          [exact Hw2 | exact Hnf |].
        rewrite !str_app_assoc. reflexivity.
      - eapply (ofws_no_fold _ (w0 +:+ tag +:+ w1 +:+ "=" +:+ w2 +:+ v) w3);
          [exact Hw3 | exact Hnf |].
        rewrite !str_app_assoc. reflexivity. }
    destruct Ht as [->|[-> ->]].
    + rewrite <- (str_app_assoc _ ";" s) in Hnf. apply no_fold_suffix in Hnf.
      destruct (IH Hnf) as (ps & tail & Hlen & Hps & Htail & Hs).
      exists ((w0, w1, w2, w3) :: ps), tail.
      split; [simpl; by rewrite Hlen|]. split; [by constructor|].
      split; [done|]. simpl.
      destruct Hs as [->|[-> Hs]].
      * left. by rewrite !str_app_assoc.
      * right. split; [done|]. by rewrite <- Hs, !str_app_assoc.
    + apply tag_list_empty in Hrest as ->.
      exists [(w0, w1, w2, w3)], "". split; [done|].
      split; [by constructor|]. split; [done|].
      right. split; [done|]. simpl. by rewrite !str_app_nil_r.
Qed.

(** C7. For an input without a fold that parses, the items re-serialized
    as ["<tag>=<value>;"] reproduce the input up to the optional
    whitespace around the tags and the values: the input is that
    serialization with runs of spaces and tabs put back at those places,
    followed by a last run of them, or it is the serialization without its
    last semicolon.  (With every run empty, [render] is [serialize], see
    [render_no_pad].  Repeated tag names do not matter here.) *)
Theorem C7_serialize_reproduces_input (input : string) (items : list Item) :
  no_fold input -> NewTagValue input = Ret items ->
  exists ps tail,
    length ps = length items /\ Forall pad_wsp ps /\ all isWSP tail = true
    /\ (input = render ps items +:+ tail
        \/ (tail = "" /\ input +:+ ";" = render ps items)).
Proof.
  intros Hnf E. apply NewTagValue_sound in E. by eapply tag_list_render.
Qed.

Lemma Contains_no_fold (s : string) : Contains s CRLF = false -> no_fold s.
Proof.
  intros H a b ->. revert H. induction a as [|c a IH].
  - rewrite str_app_nil_l. destruct b; discriminate.
  - rewrite str_app_cons. simpl. intros H.
    apply orb_false_elim in H as [_ H]. by apply IH.
Qed.

Lemma C7_witness :
  exists ps tail,
    length ps
    = length [mkItem "v" "1" 0 2; mkItem "a" "rsa-sha256" 5 9;
              mkItem "s" "b c" 21 23]
    /\ Forall pad_wsp ps /\ all isWSP tail = true
    /\ ("v=1; a = rsa-sha256; s=b c"
        = render ps [mkItem "v" "1" 0 2; mkItem "a" "rsa-sha256" 5 9;
                     mkItem "s" "b c" 21 23] +:+ tail
        \/ (tail = ""
            /\ "v=1; a = rsa-sha256; s=b c" +:+ ";"
               = render ps [mkItem "v" "1" 0 2; mkItem "a" "rsa-sha256" 5 9;
                            mkItem "s" "b c" 21 23])).
Proof.
  apply (C7_serialize_reproduces_input "v=1; a = rsa-sha256; s=b c").
  - apply Contains_no_fold. vm_compute. reflexivity.
  - vm_compute. reflexivity.
Defined.

(** ** Enough fuel *)

(** A loop that has finished within some bound yields the same outcome
    within every larger one. *)
Lemma value_loop_mono (n : nat) :
  forall (l : lexer) (item : Item) (items : list Item) o (m : nat),
    value_loop n l item items = o -> o <> Unfinished -> (n <= m)%nat ->
    value_loop m l item items = o.
Proof.
  induction n as [|n IH]; intros l item items o m E Ho Hm;
    [by rewrite <- E in Ho|].
  destruct m as [|m]; [lia|]. rewrite value_loop_S in E |- *.
  destruct (next l) as [r l1]. destruct (isValueChar r).
  - apply (IH _ _ _ _ m E Ho). lia.
  - destruct (acceptOptionalFws (backup l1)) as [l3| |]; [|done|done].
    destruct (next l3) as [r' l4].
    destruct ((r' =? eof) || (r' =? rune_of ";")); [done|].
    apply (IH _ _ _ _ m E Ho). lia.
Qed.

Lemma value_loop_enough (n : nat) (l : lexer) (item : Item)
    (items : list Item) o :
  wf l -> value_loop n l item items = o -> o <> Unfinished ->
  value_loop (bound l) l item items = o.
Proof.
  intros Hl E Ho. destruct (le_ge_dec n (bound l)) as [Hle|Hge].
  - by apply (value_loop_mono n).
  - rewrite <- E. symmetry. apply (value_loop_mono (bound l)); [done| |lia].
    destruct (value_loop_spec (bound l) l item items Hl (length_rest_bound l Hl))
      as [[-> _]|(res & -> & _)]; done.
Qed.

Lemma NewTagValue_loop_mono (n : nat) :
  forall (l : lexer) (acc : list Item) o (m : nat),
    NewTagValue_loop n l acc = o -> o <> Unfinished -> (n <= m)%nat ->
    NewTagValue_loop m l acc = o.
Proof.
  induction n as [|n IH]; intros l acc o m E Ho Hm;
    [by rewrite <- E in Ho|].
  destruct m as [|m]; [lia|]. rewrite NewTagValue_loop_S in E |- *.
  destruct (skipOptionalFws l) as [l1| |]; [|done|done].
  destruct (next l1) as [r l2]. destruct (r =? eof); [done|].
  destruct (notAlpha r); [done|].
  destruct (acceptTagRun l2) as [l3|]; [|done]. cbv zeta in E |- *.
  destruct (skipOptionalFws l3) as [l4| |]; [|done|done].
  destruct (next l4) as [r' l5]. destruct (negb (r' =? rune_of "=")); [done|].
  destruct (skipOptionalFws l5) as [l6| |]; [|done|done].
  destruct (value_loop (bound l6) l6 _ acc) as [[l7 items']| |]; [|done|done].
  apply (IH _ _ _ m E Ho). lia.
Qed.

Lemma NewTagValue_loop_enough (n m : nat) (l : lexer) (acc : list Item) o :
  wf l -> NewTagValue_loop n l acc = o -> o <> Unfinished ->
  (String.length (rest l) < m)%nat ->
  NewTagValue_loop m l acc = o.
Proof.
  intros Hl E Ho Hm. destruct (le_ge_dec n m) as [Hle|Hge].
  - by apply (NewTagValue_loop_mono n).
  - rewrite <- E. symmetry. apply (NewTagValue_loop_mono m); [done| |lia].
    pose proof (NewTagValue_loop_spec m l acc Hl Hm) as H. intros E'.
    by rewrite E' in H.
Qed.

(** ** Texts that the parser accepts *)

Lemma isValueByte_range (c : ascii) :
  isValueByte c = true -> 0x21 <= byteval c < 0x7F /\ c <> ";"%char.
Proof.
  intros H. apply isValueChar_range in H as [H1 H2]. split; [done|].
  intros ->. by apply H2.
Qed.

Lemma isValueByte_no_fws (c : ascii) (s : string) :
  isValueByte c = true -> no_fws_here (String c s).
Proof.
  intros H. apply isValueByte_range in H as [H _]. unfold no_fws_here. simpl.
  apply orb_false_intro.
  - destruct (isWSP c) eqn:Hw; [|done]. apply isWSP_byteval in Hw. lia.
  - apply Ascii.eqb_neq. intros ->. by destruct H.
Qed.

Lemma scan_fws_ofws (w s : string) :
  ofws w -> no_fws_here s -> scan_fws (w +:+ s) = Some (w, s).
Proof.
  intros Hw Hs. unfold no_fws_here in Hs.
  assert (Hs1 : starts isWSP s = false).
  { destruct s as [|c s]; [done|]. simpl in *. by apply orb_false_elim in Hs as [? _]. }
  destruct Hw as [w Hw|w1 w2 H1 H2 Hne]; unfold scan_fws.
  - rewrite (span_unique isWSP w s) by done.
    destruct s as [|c1 [|c2 s]]; try done. simpl in Hs.
    apply orb_false_elim in Hs as [_ Hcr]. by rewrite Hcr.
  - rewrite !str_app_assoc.
    rewrite (span_unique isWSP w1 (CRLF +:+ w2 +:+ s)) by done.
    change (CRLF +:+ w2 +:+ s) with (String CR (String LF (w2 +:+ s))).
    change (Ascii.eqb CR CR && Ascii.eqb LF LF) with true. cbv iota.
    destruct w2 as [|c w2]; [done|]. rewrite str_app_cons.
    simpl in H2. apply andb_prop in H2 as [Hc H2]. simpl starts. rewrite Hc.
    rewrite <- str_app_cons, (span_unique isWSP (String c w2) s); [done| |done].
    simpl. by rewrite Hc, H2.
Qed.

Lemma next_at_ascii (l : lexer) (inp : string) (st p : Z) (c : ascii) (s : string) :
  lex_at l inp st p (String c s) -> byteval c < 0x80 ->
  exists l', next l = (byteval c, l') /\ lex_at l' inp st (p + 1) s.
Proof.
  intros Hat Hc. pose proof Hat as (I & S & P & R & W).
  exists (advance l (String c "") 1). split; [by apply (next_ascii l c s)|].
  by apply (lex_at_advance l inp st p (String c "") s 1).
Qed.

Lemma next_at_eof (l : lexer) (inp : string) (st p : Z) :
  lex_at l inp st p "" ->
  exists l', next l = (eof, l') /\ lex_at l' inp st p "".
Proof.
  intros Hat. pose proof Hat as (I & S & P & R & W).
  exists (set_width l 0). split; [by apply next_eof | done].
Qed.

Lemma lex_at_backup (l l' : lexer) (inp : string) (st p : Z) (s : string) (r : rune) :
  lex_at l inp st p s -> next l = (r, l') -> lex_at (backup l') inp st p s.
Proof.
  intros (I & S & P & R & W) E. rewrite next_exact in E by done.
  injection E as _ <-. rewrite backup_next. unfold lex_at. done.
Qed.

(** A lone byte above 0x7F that an ASCII byte follows is read as one rune
    of width 1. *)
Lemma DecodeRune_lone (c d : ascii) (s : string) :
  0x80 <= byteval c -> byteval d < 0x80 ->
  DecodeRuneInString (String c (String d s)) = (RuneError, 1).
Proof.
  intros Hc Hd. unfold DecodeRuneInString. rewrite !len_String.
  pose proof (len_nonneg s).
  destruct (Z.ltb_spec (1 + (1 + len s)) 1); [lia|].
  change (at_ (String c (String d s)) 0) with (byteval c).
  change (at_ (String c (String d s)) 1) with (byteval d).
  destruct (acceptRange (byteval c)) as [lo hi] eqn:Hrange.
  apply acceptRange_bounds in Hrange as (Hlo & _).
  cbv zeta.
  destruct (first_size_cases (byteval c))
    as [[? ->]|[[? ->]|[[? ->]|[[? ->]|[[? ->]|[? ->]]]]]]; simpl Z.eqb; cbv iota;
    try lia; try done.
  all: match goal with |- context [?a <? ?b] => destruct (Z.ltb_spec a b) end;
    [done|].
  all: destruct (Z.ltb_spec (byteval d) lo); [done | lia].
Qed.

(** An odd byte that a value character follows is read as one rune, which
    is not a value character, nor a semicolon, nor the end. *)
Lemma next_at_odd (l : lexer) (inp : string) (st p : Z) (x c : ascii) (s : string) :
  lex_at l inp st p (String x (String c s)) ->
  odd_byte x = true -> isValueByte c = true ->
  exists r l',
    next l = (r, l') /\ lex_at l' inp st (p + 1) (String c s)
    /\ isValueChar r = false /\ r <> eof /\ r <> rune_of ";".
Proof.
  intros Hat Hx Hc. pose proof Hat as (I & S & P & R & W).
  apply isValueByte_range in Hc as [Hc _].
  unfold odd_byte in Hx. apply andb_prop in Hx as [Hx Hw].
  apply andb_prop in Hx as [Hv Hsemi]. apply negb_true_iff in Hv.
  unfold notSemi in Hsemi. apply negb_true_iff, Ascii.eqb_neq in Hsemi.
  pose proof (byteval_range x) as Rx.
  destruct (Z.lt_ge_cases (byteval x) 0x80) as [Hlow|Hhigh].
  - destruct (next_at_ascii l inp st p x _ Hat Hlow) as (l' & E & Hat').
    exists (byteval x), l'. split; [done|]. split; [done|]. split; [done|].
    split; [unfold eof; lia|]. intros E'. by apply byteval_inj in E'.
  - exists RuneError, (advance l (String x "") 1).
    rewrite next_rest, R, DecodeRune_lone by (done || lia).
    split; [done|].
    split; [by apply (lex_at_advance l inp st p (String x "") _ 1)|]. done.
Qed.

Lemma scan_fws_odd (x c : ascii) (s : string) :
  odd_byte x = true -> isValueByte c = true ->
  scan_fws (String x (String c s)) = Some ("", String x (String c s)).
Proof.
  intros Hx Hc. unfold odd_byte in Hx. apply andb_prop in Hx as [_ Hw].
  apply negb_true_iff in Hw. unfold scan_fws. simpl span. rewrite Hw.
  destruct (Ascii.eqb_spec c LF) as [->|Hne]; [done|].
  by rewrite andb_false_r.
Qed.

Lemma ofws_first_not_value (w s : string) :
  ofws w -> w <> "" -> isValueChar (first_rune (w +:+ s)) = false.
Proof.
  intros Hw Hne.
  assert (H : exists c w', w = String c w' /\ byteval c < 0x21).
  { destruct Hw as [w Hw|w1 w2 H1 _ _].
    - destruct w as [|c w]; [done|]. exists c, w. split; [done|].
      simpl in Hw. apply andb_prop in Hw as [Hc _].
      apply isWSP_byteval in Hc. lia.
    - destruct w1 as [|c w1].
      + exists CR, (String LF w2). done.
      + exists c, (w1 +:+ CRLF +:+ w2). split; [done|].
        simpl in H1. apply andb_prop in H1 as [Hc _].
        apply isWSP_byteval in Hc. lia. }
  destruct H as (c & w' & -> & Hc). rewrite str_app_cons.
  rewrite first_rune_ascii by lia.
  destruct (isValueChar (byteval c)) eqn:E; [|done].
  apply isValueChar_range in E. lia.
Qed.

Section ValueLoop.

Variables (inp : string) (st : Z).

Lemma value_loop_vbody (v : string) :
  vbody v ->
  forall (l : lexer) (p : Z) (s : string),
    lex_at l inp st p (v +:+ s) ->
    exists l' n0,
      lex_at l' inp st (p + len v) s
      /\ forall n item items,
           value_loop (n0 + n) l item items = value_loop n l' item items.
Proof.
  induction 1 as [|c v Hc Hv IH|w c v Hw Hne Hc Hv IH|x c v Hx Hc Hv IH];
    intros l p s Hat.
  - exists l, 0%nat. rewrite len_empty, Z.add_0_r. done.
  - rewrite str_app_cons in Hat.
    pose proof (isValueByte_range c Hc) as [Rc _].
    destruct (next_at_ascii l inp st p c _ Hat ltac:(lia)) as (l1 & E1 & Hat1).
    destruct (IH l1 _ s Hat1) as (l' & n0 & Hat' & Hrun).
    exists l', (S n0). split; [rewrite len_String; by replace (p + (1 + len v)) with (p + 1 + len v) by lia|].
    intros n item items. simpl Nat.add. rewrite value_loop_S, E1.
    unfold isValueByte in Hc. rewrite Hc. apply Hrun.
  - rewrite str_app_assoc, str_app_cons in Hat.
    pose proof (isValueByte_range c Hc) as [Rc Hsemi].
    destruct (next_at l inp st p _ Hat) as (l1 & a & b & E1 & _ & _ & _ & _).
    pose proof (lex_at_backup _ _ _ _ _ _ _ Hat E1) as Hat2.
    pose proof (acceptOptionalFws_at _ _ _ _ _ Hat2) as H3.
    rewrite scan_fws_ofws in H3 by (done || by apply isValueByte_no_fws).
    destruct H3 as (l3 & E3 & _ & _ & _ & Hat3).
    destruct (next_at_ascii l3 inp st _ c _ Hat3 ltac:(lia)) as (l4 & E4 & Hat4).
    destruct (IH l4 _ s Hat4) as (l' & n0 & Hat' & Hrun).
    exists l', (S n0).
    split; [rewrite len_app, len_String; by replace (p + (len w + (1 + len v))) with (p + len w + 1 + len v) by lia|].
    intros n item items. simpl Nat.add. rewrite value_loop_S, E1.
    rewrite ofws_first_not_value by done. rewrite E3, E4.
    replace ((byteval c =? eof) || (byteval c =? rune_of ";")) with false.
    + apply Hrun.
    + symmetry. apply orb_false_intro; apply Z.eqb_neq.
      * unfold eof. lia.
      * intros E. by apply byteval_inj in E.
  - rewrite !str_app_cons in Hat.
    pose proof (isValueByte_range c Hc) as [Rc Hsemi].
    destruct (next_at_odd l inp st p x c _ Hat Hx Hc)
      as (r & l1 & E1 & Hat1 & Hnv & Hneof & Hnsemi).
    pose proof (lex_at_backup _ _ _ _ _ _ _ Hat E1) as Hat2.
    pose proof (acceptOptionalFws_at _ _ _ _ _ Hat2) as H3.
    rewrite scan_fws_odd in H3 by done.
    destruct H3 as (l3 & E3 & _ & _ & _ & Hat3).
    rewrite len_empty, Z.add_0_r in Hat3.
    destruct (next_at_odd l3 inp st p x c _ Hat3 Hx Hc)
      as (r' & l4 & E4 & Hat4 & _ & Hneof' & Hnsemi').
    destruct (next_at_ascii l4 inp st _ c _ Hat4 ltac:(lia)) as (l5 & E5 & Hat5).
    destruct (IH l5 _ s Hat5) as (l' & n0 & Hat' & Hrun).
    exists l', (S (S n0)).
    split; [rewrite !len_String; by replace (p + (1 + (1 + len v))) with (p + 1 + 1 + len v) by lia|].
    intros n item items. simpl Nat.add. rewrite value_loop_S, E1, Hnv, E3, E4.
    apply Z.eqb_neq in Hneof', Hnsemi'. rewrite Hneof', Hnsemi'. simpl orb.
    cbv iota. rewrite value_loop_S, E5. unfold isValueByte in Hc. rewrite Hc.
    apply Hrun.
Qed.

(** At the end of the value: the loop appends the item. *)
Lemma value_loop_end (l : lexer) (p : Z) (w t s : string) :
  lex_at l inp st p (w +:+ t +:+ s) -> ofws w -> term_ok t s ->
  exists l',
    lex_at l' inp st (p + len w + len t) s
    /\ forall item items,
         value_loop 1 l item items
         = Ret (l', items ++ [mkItem (Tag item) (slice inp st p)
                                     (TagPos item) st]).
Proof.
  intros Hat Hw Ht.
  assert (Hts : no_fws_here (t +:+ s)) by (by destruct Ht as [->|[-> ->]]).
  assert (Hnv : isValueChar (first_rune (w +:+ t +:+ s)) = false).
  { destruct w as [|c w]; [|by apply ofws_first_not_value].
    rewrite str_app_nil_l. destruct Ht as [->|[-> ->]]; [|done].
    change (";" +:+ s) with (String ";" s). by rewrite first_rune_ascii. }
  destruct (next_at l inp st p _ Hat) as (l1 & a & b & E1 & _ & _ & _ & _).
  pose proof (lex_at_backup _ _ _ _ _ _ _ Hat E1) as Hat2.
  pose proof (acceptOptionalFws_at _ _ _ _ _ Hat2) as H3.
  rewrite scan_fws_ofws in H3 by done.
  destruct H3 as (l3 & E3 & _ & _ & _ & Hat3).
  destruct Hat2 as (_ & _ & P2 & _).
  destruct Ht as [->|[-> ->]].
  - destruct (next_at_ascii l3 inp st _ ";" _ Hat3 ltac:(done)) as (l4 & E4 & Hat4).
    exists l4. split; [by change (len ";") with 1|].
    intros item items. rewrite value_loop_S, E1, Hnv, E3, E4, P2.
    destruct Hat4 as (I4 & S4 & _). by rewrite I4, S4.
  - destruct (next_at_eof l3 inp st _ Hat3) as (l4 & E4 & Hat4).
    exists l4. split; [by rewrite len_empty, Z.add_0_r|].
    intros item items. rewrite value_loop_S, E1, Hnv, E3, E4, P2.
    destruct Hat4 as (I4 & S4 & _). by rewrite I4, S4.
Qed.

(** At a CRLF that no space or tab follows: the loop returns the error. *)
Lemma value_loop_bad (l : lexer) (p : Z) (w r : string)
    (item : Item) (items : list Item) :
  lex_at l inp st p (w +:+ CRLF +:+ r) ->
  all isWSP w = true -> starts isWSP r = false ->
  value_loop 1 l item items = Err malformed.
Proof.
  intros Hat Hw Hr.
  assert (Hnv : isValueChar (first_rune (w +:+ CRLF +:+ r)) = false).
  { destruct w as [|c w].
    - rewrite str_app_nil_l. change (CRLF +:+ r) with (String CR (String LF r)).
      by rewrite first_rune_ascii.
    - by apply ofws_first_not_value; [constructor|]. }
  destruct (next_at l inp st p _ Hat) as (l1 & a & b & E1 & _ & _ & _ & _).
  pose proof (lex_at_backup _ _ _ _ _ _ _ Hat E1) as Hat2.
  pose proof (acceptOptionalFws_at _ _ _ _ _ Hat2) as H3.
  rewrite (proj2 (scan_fws_None _)) in H3 by (by exists w, r).
  destruct H3 as [E3 _]. by rewrite value_loop_S, E1, Hnv, E3.
Qed.

End ValueLoop.

(** *** One tag-spec *)

Lemma isAlpha_range (c : ascii) :
  isAlpha c = true -> 0x41 <= byteval c < 0x80.
Proof.
  unfold isAlpha. intros H. apply negb_true_iff in H.
  pose proof (notAlpha_range _ H). revert H. unfold notAlpha, rune_of.
  change (byteval "a") with 97. change (byteval "z") with 122.
  change (byteval "A") with 65. change (byteval "Z") with 90.
  intros H. apply andb_false_elim in H as [H|H];
    apply orb_false_elim in H as [H1 H2]; apply Z.ltb_ge in H1, H2; lia.
Qed.

Lemma isAlpha_no_fws (c : ascii) (s : string) :
  isAlpha c = true -> no_fws_here (String c s).
Proof.
  intros H. apply isAlpha_range in H. unfold no_fws_here. simpl.
  apply orb_false_intro.
  - destruct (isWSP c) eqn:Hw; [|done]. apply isWSP_byteval in Hw. lia.
  - apply Ascii.eqb_neq. intros ->. by destruct H.
Qed.

Lemma isTagChar_range (c : ascii) : isTagChar c = true -> 0x30 <= byteval c.
Proof.
  unfold isTagChar, memb. intros H. apply existsb_exists in H as (d & Hin & Hd).
  apply Ascii.eqb_eq in Hd as <-. simpl in Hin.
  repeat (destruct Hin as [<-|Hin]; [done|]). done.
Qed.

Lemma ofws_ends_tag (w s : string) : ofws w -> ends_tag s -> ends_tag (w +:+ s).
Proof.
  intros Hw Hs. unfold ends_tag in *.
  assert (Hc : forall c, isWSP c = true \/ c = CR -> isTagChar c = false).
  { intros c H. destruct (isTagChar c) eqn:E; [|done].
    apply isTagChar_range in E. destruct H as [H| ->]; [|done].
    apply isWSP_byteval in H. lia. }
  destruct Hw as [w Hw|w1 w2 H1 _ _].
  - destruct w as [|c w]; [done|]. simpl in *.
    apply andb_prop in Hw as [Hw _]. apply Hc. by left.
  - destruct w1 as [|c w1]; [apply Hc; by right|]. simpl in *.
    apply andb_prop in H1 as [H1 _]. apply Hc. by left.
Qed.

Section OneSpec.

Variable inp : string.

(** The whitespace and the tag name. *)
Lemma loop_tag (l : lexer) (st p : Z) (w0 tag s : string) :
  lex_at l inp st p (w0 +:+ tag +:+ s) ->
  ofws w0 -> is_tag tag = true -> ends_tag s ->
  exists l3,
    lex_at l3 inp (p + len w0) (p + len w0 + len tag) s
    /\ forall n acc,
         NewTagValue_loop (S n) l acc = after_tag n acc tag (p + len w0) l3.
Proof.
  intros Hat Hw0 Htag Hs. destruct tag as [|c t]; [done|].
  simpl in Htag. apply andb_prop in Htag as [Hc Ht].
  pose proof (isAlpha_range c Hc) as Rc.
  pose proof (skipOptionalFws_at _ _ _ _ _ Hat) as H0.
  rewrite str_app_cons in H0.
  rewrite scan_fws_ofws in H0 by (done || by apply isAlpha_no_fws).
  destruct H0 as (l1 & E0 & _ & _ & _ & Hat1).
  destruct (next_at_ascii l1 inp _ _ c _ Hat1 ltac:(lia)) as (l2 & E1 & Hat2).
  destruct (acceptTagRun_at _ _ _ _ _ Hat2) as (l3 & E2 & Hat3).
  rewrite (span_unique isTagChar t s) in Hat3 by done. simpl in Hat3.
  exists l3. split.
  { rewrite len_String. by replace (p + len w0 + (1 + len t))
      with (p + len w0 + 1 + len t) by lia. }
  intros n acc. rewrite NewTagValue_loop_S, E0, E1.
  replace (byteval c =? eof) with false
    by (symmetry; apply Z.eqb_neq; unfold eof; lia).
  unfold isAlpha in Hc. apply negb_true_iff in Hc. rewrite Hc, E2. cbv zeta.
  assert (Etag : slice (input l3) (start l3) (pos l3) = String c t).
  { destruct Hat3 as (-> & -> & -> & _). destruct Hat1 as (I1 & _ & P1 & R1 & W1).
    replace (p + len w0 + 1 + len t) with (p + len w0 + len (String c t))
      by (rewrite len_String; lia).
    apply (slice_app _ _ s); [unfold wf in W1; lia|].
    unfold rest in R1. by rewrite <- I1, <- P1, R1. }
  assert (Est : start l3 = p + len w0) by apply Hat3.
  rewrite Etag, Est. reflexivity.
Qed.

(** The whitespace and the equals sign. *)
Lemma loop_eq (l3 : lexer) (st p : Z) (tag : string) (tagpos : Z)
    (w1 s : string) :
  lex_at l3 inp st p (w1 +:+ "=" +:+ s) -> ofws w1 ->
  exists l5 st',
    lex_at l5 inp st' (p + len w1 + 1) s
    /\ forall n acc,
         after_tag n acc tag tagpos l3 = after_eq n acc tag tagpos l5.
Proof.
  intros Hat Hw1.
  pose proof (skipOptionalFws_at _ _ _ _ _ Hat) as H0.
  rewrite scan_fws_ofws in H0 by done.
  destruct H0 as (l4 & E0 & _ & _ & _ & Hat4).
  destruct (next_at_ascii l4 inp _ _ "=" _ Hat4 ltac:(done)) as (l5 & E1 & Hat5).
  exists l5, (p + len w1). split; [done|].
  intros n acc. unfold after_tag. by rewrite E0, E1.
Qed.

(** The whitespace before the value. *)
Lemma loop_value (l5 : lexer) (st p : Z) (tag : string) (tagpos : Z)
    (w2 s : string) :
  lex_at l5 inp st p (w2 +:+ s) -> ofws w2 -> no_fws_here s ->
  exists l6,
    lex_at l6 inp (p + len w2) (p + len w2) s
    /\ forall n acc,
         after_eq n acc tag tagpos l5
         = match value_loop (bound l6) l6 (mkItem tag "" tagpos 0) acc with
           | Ret (l7, items') => NewTagValue_loop n l7 items'
           | Err e => Err e
           | Unfinished => Unfinished
           end.
Proof.
  intros Hat Hw2 Hs.
  pose proof (skipOptionalFws_at _ _ _ _ _ Hat) as H0.
  rewrite scan_fws_ofws in H0 by done.
  destruct H0 as (l6 & E0 & _ & _ & _ & Hat6).
  exists l6. split; [done|]. intros n acc. unfold after_eq. by rewrite E0.
Qed.

(** A CRLF that no space or tab follows, at each of the three places where
    the outer loop skips whitespace. *)
Lemma skip_bad (l : lexer) (st p : Z) (w r : string) :
  lex_at l inp st p (w +:+ CRLF +:+ r) ->
  all isWSP w = true -> starts isWSP r = false ->
  skipOptionalFws l = Err malformed.
Proof.
  intros Hat Hw Hr. pose proof (skipOptionalFws_at _ _ _ _ _ Hat) as H0.
  rewrite (proj2 (scan_fws_None _)) in H0 by (by exists w, r). apply H0.
Qed.

End OneSpec.

(** *** Completeness *)

Lemma value_loop_complete (inp : string) (l : lexer) (p : Z)
    (v w3 t s : string) :
  lex_at l inp p p (v +:+ w3 +:+ t +:+ s) ->
  vbody v -> ofws w3 -> term_ok t s ->
  exists l',
    lex_at l' inp p (p + len v + len w3 + len t) s
    /\ forall item items,
         value_loop (bound l) l item items
         = Ret (l', items ++ [mkItem (Tag item) v (TagPos item) p]).
Proof.
  intros Hat Hv Hw3 Ht.
  destruct (value_loop_vbody inp p v Hv l p _ Hat) as (l1 & n0 & Hat1 & Hrun).
  destruct (value_loop_end inp p l1 _ w3 t s Hat1 Hw3 Ht) as (l' & Hat' & E).
  exists l'. split; [done|]. intros item items.
  apply (value_loop_enough (n0 + 1)); [apply Hat| |done].
  assert (Hs : slice inp p (p + len v) = v).
  { destruct Hat as (I & _ & P & R & W).
    apply (slice_app inp v (w3 +:+ t +:+ s)); [unfold wf in W; lia|].
    unfold rest in R. by rewrite <- I, <- P. }
  by rewrite Hrun, E, Hs.
Qed.

Lemma value_loop_malformed (inp : string) (l : lexer) (p : Z)
    (v w r : string) (item : Item) (items : list Item) :
  lex_at l inp p p (v +:+ w +:+ CRLF +:+ r) ->
  vbody v -> all isWSP w = true -> starts isWSP r = false ->
  value_loop (bound l) l item items = Err malformed.
Proof.
  intros Hat Hv Hw Hr.
  destruct (value_loop_vbody inp p v Hv l p _ Hat) as (l1 & n0 & Hat1 & Hrun).
  apply (value_loop_enough (n0 + 1)); [apply Hat| |done].
  rewrite Hrun. by apply (value_loop_bad inp p l1 (p + len v) w r).
Qed.

Lemma value_text_no_fws (v w3 t s : string) :
  value_text v -> (v = "" -> w3 = "") -> term_ok t s ->
  no_fws_here (v +:+ w3 +:+ t +:+ s).
Proof.
  intros [_ [->|Hv]] Hw3 Ht.
  - rewrite (Hw3 eq_refl), !str_app_nil_l. by destruct Ht as [->|[-> ->]].
  - destruct v as [|c v]; [done|]. rewrite str_app_cons.
    by apply isValueByte_no_fws.
Qed.

Lemma ends_tag_eq (s : string) : ends_tag ("=" +:+ s).
Proof. done. Qed.

(** One complete tag-spec: the loop appends its item and goes on after the
    terminator. *)
Lemma loop_spec (inp : string) (l : lexer)
    (st p : Z) (w0 tag w1 w2 v w3 t s : string) :
  lex_at l inp st p (tag_spec w0 tag w1 w2 v w3 +:+ t +:+ s) ->
  ofws w0 -> is_tag tag = true -> ofws w1 -> ofws w2 -> value_text v ->
  ofws w3 -> (v = "" -> w3 = "") -> term_ok t s ->
  exists l7 st',
    lex_at l7 inp st' (p + len (tag_spec w0 tag w1 w2 v w3 +:+ t)) s
    /\ forall n acc,
         NewTagValue_loop (S n) l acc
         = NewTagValue_loop n l7
             (acc ++ [mkItem tag v (p + len w0)
                             (p + len (w0 +:+ tag +:+ w1 +:+ "=" +:+ w2))]).
Proof.
  intros Hat Hw0 Htag Hw1 Hw2 Hv Hw3 Hv3 Ht.
  unfold tag_spec in Hat. rewrite !str_app_assoc in Hat.
  destruct (loop_tag inp l st p w0 tag _ Hat Hw0 Htag) as (l3 & Hat3 & E3).
  { apply ofws_ends_tag; [done | apply ends_tag_eq]. }
  destruct (loop_eq inp l3 _ _ tag (p + len w0) w1 _ Hat3 Hw1)
    as (l5 & st5 & Hat5 & E5).
  destruct (loop_value inp l5 _ _ tag (p + len w0) w2 _ Hat5 Hw2)
    as (l6 & Hat6 & E6).
  { by apply value_text_no_fws. }
  destruct (value_loop_complete inp l6 _ v w3 t s Hat6 (proj1 Hv) Hw3 Ht)
    as (l7 & Hat7 & E7).
  assert (Hp : p + len w0 + len tag + len w1 + 1 + len w2
               = p + len (w0 +:+ tag +:+ w1 +:+ "=" +:+ w2)).
  { rewrite !len_app. change (len "=") with 1. lia. }
  exists l7. eexists. split.
  - replace (p + len (tag_spec w0 tag w1 w2 v w3 +:+ t))
      with (p + len w0 + len tag + len w1 + 1 + len w2 + len v + len w3 + len t);
      [exact Hat7|].
    unfold tag_spec. rewrite !len_app. change (len "=") with 1. lia.
  - intros n acc. rewrite E3, E5, E6, E7. cbn [Tag TagPos]. by rewrite Hp.
Qed.

Lemma well_formed_loop (inp : string) (off : Z) (s : string) (items : list Item) :
  well_formed off s items ->
  forall (l : lexer) (st : Z) (acc : list Item),
    lex_at l inp st off s ->
    exists n, NewTagValue_loop n l acc = Ret (acc ++ items).
Proof.
  induction 1 as [off w Hw|off w0 tag w1 w2 v w3 t s items
                    Hw0 Htag Hw1 Hw2 Hv Hw3 Hv3 Ht Hrest IH];
    intros l st acc Hat.
  - exists 1%nat. rewrite NewTagValue_loop_S.
    rewrite <- (str_app_nil_r w) in Hat.
    pose proof (skipOptionalFws_at _ _ _ _ _ Hat) as H0.
    rewrite scan_fws_ofws in H0 by done.
    destruct H0 as (l1 & -> & _ & _ & _ & Hat1).
    destruct (next_at_eof _ _ _ _ Hat1) as (l2 & -> & _).
    by rewrite app_nil_r.
  - destruct (loop_spec inp l st off w0 tag w1 w2 v w3 t s Hat)
      as (l7 & st7 & Hat7 & E); try done.
    destruct (IH l7 st7 (acc ++ [mkItem tag v (off + len w0)
                (off + len (w0 +:+ tag +:+ w1 +:+ "=" +:+ w2))]) Hat7)
      as (n & En).
    exists (S n). rewrite E, En. by rewrite <- app_assoc.
Qed.

(** Every well-formed tag-list parses, to its items. *)
Theorem NewTagValue_complete (input : string) (items : list Item) :
  well_formed 0 input items -> NewTagValue input = Ret items.
Proof.
  intros H. set (l := mkLexer input 0 0 0).
  assert (Hl : wf l) by (unfold wf; simpl; pose proof (len_nonneg input); lia).
  assert (Hat : lex_at l input 0 0 input).
  { unfold lex_at. repeat split; try done; try apply Hl. apply slice_from_0. }
  destruct (well_formed_loop input 0 input items H l 0 [] Hat) as (n & En).
  unfold NewTagValue. apply (NewTagValue_loop_enough n); try done.
  fold l. destruct Hat as (_ & _ & _ & -> & _). lia.
Qed.

(** ** Values with other characters *)

Lemma str_app_len_inj (a b a' b' : string) :
  a +:+ b = a' +:+ b' -> len a = len a' -> a = a' /\ b = b'.
Proof.
  revert a'. induction a as [|c a IH]; intros [|c' a'] E L.
  - by rewrite !str_app_nil_l in E.
  - rewrite len_empty, len_String in L. pose proof (len_nonneg a'). lia.
  - rewrite len_empty, len_String in L. pose proof (len_nonneg a). lia.
  - rewrite !str_app_cons in E. injection E as -> E.
    rewrite !len_String in L. destruct (IH a' E ltac:(lia)) as [-> ->]. done.
Qed.

(** The scanner reads [w], and no more, as the folding whitespace in front
    of [rest]. *)
Lemma scan_fws_before (w rest : string) :
  fws_before w rest -> scan_fws (w +:+ rest) = Some (w, rest).
Proof.
  intros (Hw & Hs & Hcrlf). rewrite HasPrefix_CRLF in Hcrlf.
  destruct Hw as [w Hw|w1 w2 H1 H2 Hne]; unfold scan_fws.
  - rewrite (span_unique isWSP w rest) by done. specialize (Hcrlf Hw).
    destruct rest as [|c1 [|c2 rest]]; try done. by rewrite Hcrlf.
  - rewrite !str_app_assoc.
    rewrite (span_unique isWSP w1 (CRLF +:+ w2 +:+ rest)) by done.
    change (CRLF +:+ w2 +:+ rest) with (String CR (String LF (w2 +:+ rest))).
    change (Ascii.eqb CR CR && Ascii.eqb LF LF) with true. cbv iota.
    destruct w2 as [|c w2]; [done|]. rewrite str_app_cons.
    simpl in H2. apply andb_prop in H2 as [Hc H2]. simpl starts. rewrite Hc.
    rewrite <- str_app_cons, (span_unique isWSP (String c w2) rest); [done| |done].
    simpl. by rewrite Hc, H2.
Qed.

Section KeptValue.

Variables (inp : string) (st : Z).

(** The value loop moves over a [kept] text. *)
Lemma value_loop_kept (k v : string) :
  kept k v ->
  forall (l : lexer) (p : Z),
    lex_at l inp st p (v +:+ k) ->
    exists l' n0,
      lex_at l' inp st (p + len v) k
      /\ forall n item items,
           value_loop (n0 + n) l item items = value_loop n l' item items.
Proof.
  induction 1 as [|c v Hc Hv IH|w y v Hw Hy Hv IH]; intros l p Hat.
  - exists l, 0%nat. rewrite len_empty, Z.add_0_r. done.
  - rewrite str_app_cons in Hat.
    pose proof (isValueByte_range c Hc) as [Rc _].
    destruct (next_at_ascii l inp st p c _ Hat ltac:(lia)) as (l1 & E1 & Hat1).
    destruct (IH l1 _ Hat1) as (l' & n0 & Hat' & Hrun).
    exists l', (S n0).
    split; [rewrite len_String;
            by replace (p + (1 + len v)) with (p + 1 + len v) by lia|].
    intros n item items. simpl Nat.add. rewrite value_loop_S, E1.
    unfold isValueByte in Hc. rewrite Hc. apply Hrun.
  - rewrite !str_app_assoc in Hat.
    destruct Hy as (Hyne & Ly & Hsemi).
    destruct (isValueChar (first_rune (w +:+ y +:+ v +:+ k))) eqn:Hfirst.
    + (* no whitespace, and the character is a value character *)
      assert (w = "") as ->.
      { destruct w as [|c w]; [done|].
        rewrite ofws_first_not_value in Hfirst; [done | apply Hw | done]. }
      rewrite str_app_nil_l in Hat, Hfirst.
      pose proof (isValueChar_range _ Hfirst) as [Rr _].
      destruct (first_rune_low (y +:+ v +:+ k) _ eq_refl)
        as (c & s' & Es & Hcr & Hpw); [lia|].
      rewrite Hpw in Ly.
      assert (y = String c "" /\ v +:+ k = s') as [-> Evk].
      { destruct y as [|c' [|c'' y]]; [done| |].
        - rewrite str_app_cons, str_app_nil_l in Es. by injection Es as -> ->.
        - rewrite !len_String in Ly. pose proof (len_nonneg y). lia. }
      rewrite str_app_cons, str_app_nil_l in Hat.
      destruct (next_at_ascii l inp st p c _ Hat ltac:(lia)) as (l1 & E1 & Hat1).
      destruct (IH l1 _ Hat1) as (l' & n0 & Hat' & Hrun).
      exists l', (S n0).
      split; [rewrite str_app_nil_l, str_app_cons, str_app_nil_l, len_String;
              by replace (p + (1 + len v)) with (p + 1 + len v) by lia|].
      intros n item items. simpl Nat.add. rewrite value_loop_S, E1.
      rewrite <- Hcr in Hfirst. rewrite Hfirst. apply Hrun.
    + (* the check: optional whitespace, then a character that is kept *)
      destruct (next_at l inp st p _ Hat) as (l1 & a & b & E1 & _ & _ & _ & _).
      pose proof (lex_at_backup _ _ _ _ _ _ _ Hat E1) as Hat2.
      pose proof (acceptOptionalFws_at _ _ _ _ _ Hat2) as H3.
      rewrite scan_fws_before in H3 by done.
      destruct H3 as (l3 & E3 & _ & _ & _ & Hat3).
      destruct (next_at l3 inp st _ _ Hat3)
        as (l4 & a4 & b4 & E4 & Eab & La4 & Hat4 & _).
      rewrite <- Ly in La4.
      destruct (str_app_len_inj _ _ _ _ Eab (eq_sym La4)) as [<- <-].
      destruct (IH l4 _ Hat4) as (l' & n0 & Hat' & Hrun).
      exists l', (S n0).
      split; [rewrite !len_app;
              by replace (p + (len w + (len y + len v)))
                   with (p + len w + len y + len v) by lia|].
      intros n item items. simpl Nat.add.
      rewrite value_loop_S, E1, Hfirst, E3, E4.
      replace ((first_rune (y +:+ v +:+ k) =? eof)
               || (first_rune (y +:+ v +:+ k) =? rune_of ";")) with false.
      * apply Hrun.
      * symmetry. apply orb_false_intro; apply Z.eqb_neq; [|done].
        intros E. apply first_rune_eof in E. destruct y; done.
Qed.

End KeptValue.

Lemma value_loop_complete_kept (inp : string) (l : lexer) (p : Z)
    (v w3 t s : string) :
  lex_at l inp p p (v +:+ w3 +:+ t +:+ s) ->
  kept (w3 +:+ t +:+ s) v -> ofws w3 -> term_ok t s ->
  exists l',
    lex_at l' inp p (p + len v + len w3 + len t) s
    /\ forall item items,
         value_loop (bound l) l item items
         = Ret (l', items ++ [mkItem (Tag item) v (TagPos item) p]).
Proof.
  intros Hat Hv Hw3 Ht.
  destruct (value_loop_kept inp p _ v Hv l p Hat) as (l1 & n0 & Hat1 & Hrun).
  destruct (value_loop_end inp p l1 _ w3 t s Hat1 Hw3 Ht) as (l' & Hat' & E).
  exists l'. split; [done|]. intros item items.
  apply (value_loop_enough (n0 + 1)); [apply Hat| |done].
  assert (Hs : slice inp p (p + len v) = v).
  { destruct Hat as (I & _ & P & R & W).
    apply (slice_app inp v (w3 +:+ t +:+ s)); [unfold wf in W; lia|].
    unfold rest in R. by rewrite <- I, <- P. }
  by rewrite Hrun, E, Hs.
Qed.

(** *** Tag-lists with such values *)







(** ** The value of an item, exactly *)

(** Every item of a parse was appended by the value loop, entered at the
    offset where the value of the item starts. *)
Lemma NewTagValue_loop_values (fuel : nat) :
  forall (l : lexer) (acc res : list Item),
    wf l -> NewTagValue_loop fuel l acc = Ret res ->
    exists new,
      res = acc ++ new
      /\ forall it, it ∈ new ->
           exists l6 l7 item0 acc0,
             lex_at l6 (input l) (ValuePos it) (ValuePos it)
                    (slice_from (input l) (ValuePos it))
             /\ value_loop (bound l6) l6 item0 acc0 = Ret (l7, acc0 ++ [it]).
Proof.
  induction fuel as [|fuel IH]; intros l acc res Hl; [done|].
  rewrite NewTagValue_loop_S.
  assert (Hat : lex_at l (input l) (start l) (pos l) (rest l)) by done.
  pose proof (skipOptionalFws_at _ _ _ _ _ Hat) as H0.
  destruct (scan_fws (rest l)) as [[w0 s1]|]; [|by destruct H0 as [-> _]].
  destruct H0 as (l1 & -> & _ & _ & _ & Hat1).
  destruct (next_at _ _ _ _ _ Hat1) as (l2 & a1 & s2 & -> & _ & _ & Hat2 & _).
  destruct (first_rune s1 =? eof).
  { intros [= <-]. exists []. split; [by rewrite app_nil_r|].
    intros it Hit. by apply not_elem_of_nil in Hit. }
  destruct (notAlpha (first_rune s1)); [done|].
  destruct (acceptTagRun_at _ _ _ _ _ Hat2) as (l3 & -> & Hat3).
  pose proof (skipOptionalFws_at _ _ _ _ _ Hat3) as H3.
  destruct (scan_fws (span isTagChar s2).2) as [[w1 s4]|];
    [|by destruct H3 as [-> _]].
  destruct H3 as (l4 & -> & _ & _ & _ & Hat4).
  destruct (next_at _ _ _ _ _ Hat4) as (l5 & a2 & s5 & -> & _ & _ & Hat5 & _).
  destruct (negb (first_rune s4 =? rune_of "=")); [done|].
  pose proof (skipOptionalFws_at _ _ _ _ _ Hat5) as H5.
  destruct (scan_fws s5) as [[w2 s6]|]; [|by destruct H5 as [-> _]].
  destruct H5 as (l6 & -> & _ & _ & _ & Hat6).
  cbv zeta.
  match goal with |- context [value_loop _ _ ?it _] => set (item := it) end.
  destruct (value_loop_at l6 _ _ _ item acc Hat6)
    as [[-> _]|(l7 & v & w3 & t & s7 & Ev & _ & _ & _ & _ & _ & Hat7)];
    [done|].
  rewrite Ev. intros E.
  destruct Hat7 as (I7 & _ & _ & _ & W7).
  destruct (IH l7 _ res W7 E) as (new & -> & Hnew).
  eexists. split; [by rewrite <- app_assoc|].
  intros it Hit. apply elem_of_cons in Hit as [->|Hit].
  - exists l6, l7, item, acc. split; [|exact Ev]. cbn [ValuePos].
    destruct Hat6 as (I6 & S6 & P6 & R6 & W6). unfold lex_at.
    split; [done|]. split; [done|]. split; [done|]. split; [|done].
    unfold rest. by rewrite I6, P6.
  - rewrite <- I7. by apply Hnew.
Qed.

Lemma NewTagValue_values (input : string) (items : list Item) (it : Item) :
  NewTagValue input = Ret items -> it ∈ items ->
  exists l6 l7 item0 acc0,
    lex_at l6 input (ValuePos it) (ValuePos it)
           (slice_from input (ValuePos it))
    /\ value_loop (bound l6) l6 item0 acc0 = Ret (l7, acc0 ++ [it]).
Proof.
  intros E Hin. unfold NewTagValue in E.
  apply NewTagValue_loop_values in E as (new & -> & Hnew).
  - by apply Hnew.
  - unfold wf. simpl. pose proof (len_nonneg input). lia.
Qed.

(** Two readings of a text as whitespace without a semicolon and what
    ends the tag-spec are one. *)
Lemma terminator_unique (w w' post post' : string) :
  all notSemi w = true -> all notSemi w' = true ->
  (post = "" \/ exists r, post = ";" +:+ r) ->
  (post' = "" \/ exists r, post' = ";" +:+ r) ->
  w +:+ post = w' +:+ post' -> w = w' /\ post = post'.
Proof.
  revert w'. induction w as [|c w IH]; intros w' Hw Hw' Hp Hp' E.
  - rewrite str_app_nil_l in E. destruct w' as [|c' w'];
      [by rewrite str_app_nil_l in E|].
    exfalso. rewrite str_app_cons in E. simpl in Hw'.
    apply andb_prop in Hw' as [Hc' _].
    destruct Hp as [->|[r ->]]; [done|].
    change (";" +:+ r) with (String ";" r) in E. by injection E as <- _.
  - simpl in Hw. apply andb_prop in Hw as [Hc Hw].
    destruct w' as [|c' w'].
    + exfalso. rewrite str_app_nil_l, str_app_cons in E.
      destruct Hp' as [->|[r ->]]; [done|].
      change (";" +:+ r) with (String ";" r) in E. by injection E as -> _.
    + rewrite !str_app_cons in E. injection E as -> E.
      simpl in Hw'. apply andb_prop in Hw' as [_ Hw'].
      destruct (IH w' Hw Hw' Hp Hp' E) as [-> ->]. done.
Qed.

Lemma tag_list_value_semi (off : Z) (s : string) (items : list Item) (it : Item) :
  tag_list off s items -> it ∈ items ->
  exists pre w post,
    s = pre +:+ Value it +:+ w +:+ post
    /\ ValuePos it = off + len pre
    /\ ofws w
    /\ (post = "" \/ exists post', post = ";" +:+ post')
    /\ last_not_wsp (Value it)
    /\ all notSemi (Value it) = true.
Proof.
  induction 1 as [off w Hw|off w0 tag w1 w2 v w3 t s items
                    Hw0 Htag Hw1 Hw2 Hw3 Hlast Hns Ht Hrest IH];
    intros Hin.
  - by apply not_elem_of_nil in Hin.
  - apply elem_of_cons in Hin as [->|Hin].
    + exists (w0 +:+ tag +:+ w1 +:+ "=" +:+ w2), w3, (t +:+ s). simpl.
      split; [unfold tag_spec; by rewrite !str_app_assoc|].
      split; [done|]. split; [done|]. split; [|done].
      destruct Ht as [->|[-> ->]]; [right; by exists s | by left].
    + destruct (IH Hin) as (pre & w & post & -> & Hpos & Hw & Hpost & Hl).
      exists ((tag_spec w0 tag w1 w2 v w3 +:+ t) +:+ pre), w, post.
      split; [by rewrite !str_app_assoc|].
      split; [rewrite Hpos, (len_app _ pre); lia|]. done.
Qed.

(** A rune is one to four bytes wide. *)
Lemma peekw_range (s : string) : s <> "" -> 1 <= peekw s <= 4.
Proof.
  intros Hs. destruct s as [|c s]; [done|]. unfold peekw, DecodeRuneInString.
  cbv zeta. pose proof (len_nonneg s) as Hn. rewrite len_String.
  destruct (Z.ltb_spec (1 + len s) 1) as [?|_]; [lia|].
  destruct (acceptRange (at_ (String c s) 0)) as [lo hi].
  repeat (match goal with |- context [if ?b then _ else _] => destruct b end).
  all: cbn [snd].
  all: lia.
Qed.

(** What the scanner reads as folding whitespace is in front of the rest:
    after spaces and tabs only, no CRLF follows. *)
Lemma scan_fws_Some_before (s w r : string) :
  scan_fws s = Some (w, r) -> s = w +:+ r /\ fws_before w r.
Proof.
  intros E. pose proof (scan_fws_Some s w r E) as (Es & Hw & Hr).
  split; [done|]. split; [done|]. split; [done|].
  intros Hplain. rewrite HasPrefix_CRLF.
  destruct r as [|c1 [|c2 r]]; [done|done|].
  destruct (Ascii.eqb c1 CR && Ascii.eqb c2 LF) eqn:Hcrlf; [|done].
  exfalso. apply andb_prop in Hcrlf as [H1 H2].
  apply Ascii.eqb_eq in H1 as ->. apply Ascii.eqb_eq in H2 as ->.
  unfold scan_fws in E. rewrite Es in E.
  rewrite (span_unique isWSP w (String CR (String LF r))) in E by done.
  change (Ascii.eqb CR CR && Ascii.eqb LF LF) with true in E. cbv iota in E.
  destruct (starts isWSP r); [|done].
  destruct (span isWSP r) as [w2 s3]. injection E as Ew _.
  apply (f_equal (all isWSP)) in Ew. rewrite Hplain in Ew.
  rewrite !all_app in Ew. simpl in Ew. by rewrite andb_false_r in Ew.
Qed.

(** The value loop keeps a [kept] text: what it moves over before the
    whitespace and the end of the tag-spec. *)
Lemma value_loop_keeps (inp : string) (st : Z) (fuel : nat) :
  forall (l : lexer) (p : Z) (s : string) (item : Item) (items : list Item)
         (l' : lexer) (res : list Item),
    lex_at l inp st p s ->
    value_loop fuel l item items = Ret (l', res) ->
    exists v w t s',
      s = v +:+ w +:+ t +:+ s' /\ kept (w +:+ t +:+ s') v /\ ofws w
      /\ term_ok t s'
      /\ res = items ++ [mkItem (Tag item) (slice inp st (p + len v))
                                (TagPos item) st].
Proof.
  induction fuel as [|fuel IH]; intros l p s item items l' res Hat; [done|].
  rewrite value_loop_S.
  destruct (next_at l inp st p s Hat) as (l1 & a & b & E1 & Es & La & Hat1 & _).
  rewrite E1.
  destruct (isValueChar (first_rune s)) eqn:Hfirst.
  - (* a value character *)
    pose proof (isValueChar_range _ Hfirst) as [Rr _].
    destruct (first_rune_low s _ eq_refl) as (c & s1 & Es1 & Hc & Hpw); [lia|].
    rewrite Hpw in La.
    assert (a = String c "" /\ b = s1) as [-> ->].
    { rewrite Es1 in Es. destruct a as [|x [|y a]].
      - by rewrite len_empty in La.
      - rewrite str_app_cons, str_app_nil_l in Es. by injection Es as -> ->.
      - rewrite !len_String in La. pose proof (len_nonneg a). lia. }
    intros E. destruct (IH _ _ _ _ _ _ _ Hat1 E)
      as (v & w & t & s' & -> & Hv & Hw & Ht & ->).
    exists (String c v), w, t, s'. split; [by rewrite Es1|].
    split; [apply kept_value; [|done]; unfold isValueByte; by rewrite Hc|].
    split; [done|]. split; [done|].
    rewrite !len_String, len_empty.
    by replace (p + (1 + 0) + len v) with (p + (1 + len v)) by lia.
  - (* the check *)
    pose proof (lex_at_backup _ _ _ _ _ _ _ Hat E1) as Hat2.
    pose proof (acceptOptionalFws_at _ _ _ _ _ Hat2) as H3.
    destruct (scan_fws s) as [[w r]|] eqn:Hscan; [|by destruct H3 as [-> _]].
    destruct H3 as (l3 & -> & _ & Hw & _ & Hat3).
    apply scan_fws_Some_before in Hscan as [Esw Hbefore].
    destruct (next_at l3 inp st _ r Hat3)
      as (l4 & a4 & b4 & E4 & Er & La4 & Hat4 & _).
    rewrite E4.
    assert (P2 : pos l1 - width l1 = p) by apply Hat2.
    assert (I4 : input l4 = inp) by apply Hat4.
    assert (S4 : start l4 = st) by apply Hat4.
    destruct (Z.eqb_spec (first_rune r) eof) as [Heof|Hneof].
    { (* the end of the input *)
      intros [= <- <-]. apply first_rune_eof in Heof.
      exists "", w, "", "". split; [by rewrite Esw, Heof, !str_app_nil_l|].
      split; [apply kept_nil|]. split; [done|]. split; [by right|].
      by rewrite I4, S4, P2, len_empty, Z.add_0_r. }
    destruct (Z.eqb_spec (first_rune r) (rune_of ";")) as [Hsemi|Hnsemi].
    { (* the semicolon *)
      intros [= <- <-].
      destruct (first_rune_low r _ Hsemi ltac:(done)) as (c & r' & Er' & Hc & _).
      apply byteval_inj in Hc. subst c.
      exists "", w, ";", r'. split; [by rewrite Esw, Er', !str_app_nil_l|].
      split; [apply kept_nil|]. split; [done|]. split; [by left|].
      by rewrite I4, S4, P2, len_empty, Z.add_0_r. }
    (* another character, which is kept *)
    simpl orb. cbv iota. intros E.
    destruct (IH _ _ _ _ _ _ _ Hat4 E)
      as (v & w' & t & s' & Eb & Hv & Hw' & Ht & ->).
    assert (Hr : r <> "") by (intros ->; by apply Hneof).
    exists (w +:+ a4 +:+ v), w', t, s'.
    split; [by rewrite Esw, Er, Eb, !str_app_assoc|].
    split.
    { apply kept_other; [| |done].
      - by rewrite <- Eb, <- Er.
      - split; [|split].
        + intros ->. rewrite len_empty in La4.
          pose proof (peekw_range r Hr). lia.
        + by rewrite <- Eb, <- Er.
        + by rewrite <- Eb, <- Er. }
    split; [done|]. split; [done|].
    rewrite !len_app.
    by replace (p + len w + len a4 + len v)
         with (p + (len w + (len a4 + len v))) by lia.
Qed.

(** C2 fails as stated: with two folds before the semicolon the parser
    trims the last run of spaces only, and the value ends in a CRLF. *)
Lemma C2_counterexample :
  NewTagValue ("a=b" +:+ CRLF +:+ " " +:+ CRLF +:+ " ;")
  = Ret [mkItem "a" ("b" +:+ CRLF +:+ " " +:+ CRLF) 0 2]
  /\ ~ trailing_fws_trimmed ("b" +:+ CRLF +:+ " " +:+ CRLF).
Proof.
  split; [vm_compute; reflexivity|]. unfold trailing_fws_trimmed.
  vm_compute. discriminate.
Qed.

(** C2, amended.  The value of every parsed item is the text of the input
    that starts at [ValuePos], as it stands: value characters and other
    characters that are not semicolons, each of these with an optional
    folding whitespace in front of it.  It has no semicolon, it does not
    end in a space or a tab, and one optional folding whitespace and then
    the semicolon that ends the tag-spec, or the end of the input, follow
    it.  It is the only such reading of the text: whenever the text from
    [ValuePos] on reads as a value of this kind, one optional folding
    whitespace and the semicolon or the end, the value of the item is the
    first of these parts.  So the one folding whitespace in front of what
    ends the tag-spec is trimmed, a fold as well as spaces and tabs, and
    the folding whitespace inside the value is kept. *)
Theorem C2_value_stops_before_one_final_fws
    (input : string) (items : list Item) (it : Item) :
  NewTagValue input = Ret items -> it ∈ items ->
  exists pre w post,
    input = pre +:+ Value it +:+ w +:+ post
    /\ len pre = ValuePos it
    /\ slice input (ValuePos it) (ValuePos it + len (Value it)) = Value it
    /\ ofws w
    /\ (post = "" \/ exists post', post = ";" +:+ post')
    /\ last_not_wsp (Value it)
    /\ all notSemi (Value it) = true
    /\ kept (w +:+ post) (Value it)
    /\ forall v w' post0,
         Value it +:+ w +:+ post = v +:+ w' +:+ post0 ->
         kept (w' +:+ post0) v -> ofws w' ->
         (post0 = "" \/ exists post', post0 = ";" +:+ post') ->
         Value it = v /\ w = w' /\ post = post0.
Proof.
  intros E Hin.
  destruct (tag_list_value_semi 0 input items it (NewTagValue_sound _ _ E) Hin)
    as (pre & w & post & Ein & Hpos & Hw & Hpost & Hlast & Hns).
  rewrite Z.add_0_l in Hpos.
  exists pre, w, post. split; [done|]. split; [done|].
  assert (Hrest : slice_from input (ValuePos it) = Value it +:+ w +:+ post).
  { rewrite Hpos. apply (slice_from_app input pre _ 0); [done|].
    by rewrite slice_from_0. }
  assert (Hslice : slice input (ValuePos it) (ValuePos it + len (Value it))
                   = Value it).
  { apply (slice_app input _ (w +:+ post)); [|done].
    rewrite Hpos. apply len_nonneg. }
  split; [done|]. split; [done|]. split; [done|]. split; [done|].
  split; [done|].
  destruct (NewTagValue_values input items it E Hin)
    as (l6 & l7 & item0 & acc0 & Hat6 & Ev).
  assert (Huniq : forall v w' post0,
            Value it +:+ w +:+ post = v +:+ w' +:+ post0 ->
            kept (w' +:+ post0) v -> ofws w' ->
            (post0 = "" \/ exists post', post0 = ";" +:+ post') ->
            Value it = v /\ w = w' /\ post = post0).
  { intros v w' post0 Etext Hv Hw' Hpost0.
    rewrite Hrest, Etext in Hat6.
    assert (Ht : exists t s, post0 = t +:+ s /\ term_ok t s).
    { destruct Hpost0 as [->|[r ->]].
      - exists "", "". split; [done | by right].
      - exists ";", r. split; [done | by left]. }
    destruct Ht as (t & s & -> & Ht).
    destruct (value_loop_complete_kept input l6 _ v w' t s Hat6 Hv Hw' Ht)
      as (l' & _ & E').
    rewrite E' in Ev. injection Ev as _ Ev.
    apply app_inv_head in Ev. injection Ev as Eit.
    assert (HV : Value it = v) by (by rewrite <- Eit).
    split; [done|]. rewrite HV in Etext.
    apply str_app_inv_head in Etext.
    apply terminator_unique; try done; by apply ofws_no_semi. }
  split; [|exact Huniq].
  destruct (value_loop_keeps input _ _ _ _ _ _ _ _ _ Hat6 Ev)
    as (v & w' & t & s' & Etext & Hv & Hw' & Ht & _).
  rewrite Hrest in Etext.
  destruct (Huniq v w' (t +:+ s') Etext Hv Hw') as (-> & -> & ->); [|done].
  destruct Ht as [->|[-> ->]]; [right; by exists s' | by left].
Qed.

Lemma C2_witness :
  exists pre,
    "a= b c" +:+ CRLF +:+ " ;d=e" = pre +:+ "b c" +:+ (CRLF +:+ " ") +:+ ";d=e"
    /\ len pre = 3
    /\ slice ("a= b c" +:+ CRLF +:+ " ;d=e") 3 (3 + len "b c") = "b c"
    /\ last_not_wsp "b c"
    /\ all notSemi "b c" = true
    /\ kept ((CRLF +:+ " ") +:+ ";d=e") "b c".
Proof.
  destruct (C2_value_stops_before_one_final_fws
              ("a= b c" +:+ CRLF +:+ " ;d=e")
              [mkItem "a" "b c" 0 3; mkItem "d" "e" 10 12]
              (mkItem "a" "b c" 0 3))
    as (pre & w & post & Ein & Hlen & Hslice & Hw & Hpost & Hlast & Hns
        & Hkept & Huniq).
  - vm_compute. reflexivity.
  - left.
  - cbn [Value ValuePos] in *.
    assert (Epre : pre = "a= "
                   /\ "b c" +:+ w +:+ post = "b c" +:+ CRLF +:+ " ;d=e").
    { change ("a= b c" +:+ CRLF +:+ " ;d=e")
        with ("a= " +:+ "b c" +:+ CRLF +:+ " ;d=e") in Ein.
      symmetry in Ein. by apply str_app_len_inj in Ein. }
    destruct Epre as [-> Etext].
    destruct (Huniq "b c" (CRLF +:+ " ") ";d=e") as (_ & -> & ->).
    + by rewrite Etext, !str_app_assoc.
    + apply kept_value; [done|].
      apply (kept_other _ " " "c" ""); [| |apply kept_nil].
      * split; [by apply ofws_plain | by split].
      * by split.
    + by apply (ofws_fold "" " ").
    + right. by exists "d=e".
    + exists "a= ". done.
Defined.

(** ** Malformed folds *)

(** The offset is the one of the CRLF. *)
Lemma bad_fold_at_offset (k : Z) (s : string) :
  bad_fold_at k s ->
  exists pre r, s = pre +:+ CRLF +:+ r /\ len pre = k
                /\ starts isWSP r = false.
Proof.
  induction 1 as [w r Hw Hr|w0 tag w r _ _ Hw Hr|w0 tag w1 w r _ _ _ Hw Hr
                  |w0 tag w1 w2 v w r _ _ _ _ _ _ Hw Hr
                  |w0 tag w1 w2 v w3 s k _ _ _ _ _ _ _ _ IH].
  - by exists w, r.
  - exists (w0 +:+ tag +:+ w), r. by rewrite !str_app_assoc.
  - exists (w0 +:+ tag +:+ w1 +:+ "=" +:+ w), r. by rewrite !str_app_assoc.
  - exists (w0 +:+ tag +:+ w1 +:+ "=" +:+ w2 +:+ v +:+ w), r.
    by rewrite !str_app_assoc.
  - destruct IH as (pre & r & -> & <- & Hr).
    exists ((tag_spec w0 tag w1 w2 v w3 +:+ ";") +:+ pre), r.
    split; [by rewrite !str_app_assoc|]. split; [by rewrite len_app | done].
Qed.

Lemma plain_crlf_ends_tag (w r : string) :
  all isWSP w = true -> ends_tag (w +:+ CRLF +:+ r).
Proof.
  intros Hw. apply ofws_ends_tag; [by constructor | done].
Qed.

Lemma bad_fold_at_loop (inp : string) (k : Z) (s : string) :
  bad_fold_at k s ->
  forall (l : lexer) (st p : Z) (acc : list Item),
    lex_at l inp st p s ->
    exists n, NewTagValue_loop n l acc = Err malformed.
Proof.
  induction 1 as [w r Hw Hr|w0 tag w r Hw0 Htag Hw Hr
                  |w0 tag w1 w r Hw0 Htag Hw1 Hw Hr
                  |w0 tag w1 w2 v w r Hw0 Htag Hw1 Hw2 Hv Hne Hw Hr
                  |w0 tag w1 w2 v w3 s k Hw0 Htag Hw1 Hw2 Hv Hw3 Hv3 Hbad IH];
    intros l st p acc Hat.
  - exists 1%nat. rewrite NewTagValue_loop_S.
    by rewrite (skip_bad inp l st p w r).
  - destruct (loop_tag inp l st p w0 tag _ Hat Hw0 Htag) as (l3 & Hat3 & E3).
    { by apply plain_crlf_ends_tag. }
    exists 1%nat. rewrite E3. unfold after_tag.
    by rewrite (skip_bad inp l3 _ _ w r Hat3).
  - destruct (loop_tag inp l st p w0 tag _ Hat Hw0 Htag) as (l3 & Hat3 & E3).
    { apply ofws_ends_tag; [done | apply ends_tag_eq]. }
    destruct (loop_eq inp l3 _ _ tag (p + len w0) w1 _ Hat3 Hw1)
      as (l5 & st5 & Hat5 & E5).
    exists 1%nat. rewrite E3, E5. unfold after_eq.
    by rewrite (skip_bad inp l5 _ _ w r Hat5).
  - destruct (loop_tag inp l st p w0 tag _ Hat Hw0 Htag) as (l3 & Hat3 & E3).
    { apply ofws_ends_tag; [done | apply ends_tag_eq]. }
    destruct (loop_eq inp l3 _ _ tag (p + len w0) w1 _ Hat3 Hw1)
      as (l5 & st5 & Hat5 & E5).
    destruct (loop_value inp l5 _ _ tag (p + len w0) w2 _ Hat5 Hw2)
      as (l6 & Hat6 & E6).
    { destruct Hv as [_ [->|Hv]]; [done|]. destruct v as [|c v]; [done|].
      rewrite str_app_cons. by apply isValueByte_no_fws. }
    exists 1%nat. rewrite E3, E5, E6.
    by rewrite (value_loop_malformed inp l6 _ v w r _ _ Hat6 (proj1 Hv)).
  - rewrite <- str_app_assoc in Hat.
    destruct (loop_spec inp l st p w0 tag w1 w2 v w3 ";" s)
      as (l7 & st7 & Hat7 & E7); try done.
    { by rewrite <- str_app_assoc. }
    { by left. }
    destruct (IH l7 st7 _ (acc ++ [mkItem tag v (p + len w0)
                (p + len (w0 +:+ tag +:+ w1 +:+ "=" +:+ w2))]) Hat7)
      as (n & En).
    exists (S n). by rewrite E7.
Qed.

(** The same at every place where the parser skips optional whitespace and
    finds, after spaces and tabs, a CRLF with no space or tab after it, at
    whatever offset [k]: [NewTagValue] fails with the plain error
    "malformed folding whitespace" of [errors.New], which has no position,
    and [NewDkimKey] reports it at position 0. *)
Lemma malformed_fold_is_a_plain_error (input : string) (k : Z) :
  bad_fold_at k input ->
  NewTagValue input = Err (errors_New "malformed folding whitespace")
  /\ NewDkimKey input
     = Ret (errorKey (mkParseError "malformed folding whitespace" 0)).
Proof.
  intros Hbad. set (l := mkLexer input 0 0 0).
  assert (Hl : wf l) by (unfold wf; simpl; pose proof (len_nonneg input); lia).
  assert (Hat : lex_at l input 0 0 input).
  { unfold lex_at. repeat split; try done; try apply Hl. apply slice_from_0. }
  destruct (bad_fold_at_loop input k input Hbad l 0 0 [] Hat) as (n & En).
  assert (E : NewTagValue input = Err malformed).
  { unfold NewTagValue. fold l. apply (NewTagValue_loop_enough n); try done.
    destruct Hat as (_ & _ & _ & -> & _). lia. }
  split; [exact E|].
  unfold NewDkimKey, NewMap, mbind, outcome_bind, bind. by rewrite E.
Qed.

(** C5, at the input [a=b CRLF c]: the CRLF that no space or tab follows
    is at offset 3; the error of [NewTagValue] is the plain one of
    [errors.New], not a [ParseError], so that it has no position, and the
    key of [NewDkimKey] reports it at position 0.  The two other errors of
    the parser are [ParseError]s with the position of the cursor, as the
    one for [a=b;=] shows. *)
Theorem C5_fold_error_carries_no_position :
  slice ("a=b" +:+ CRLF +:+ "c") 3 5 = CRLF
  /\ NewTagValue ("a=b" +:+ CRLF +:+ "c")
     = Err (errors_New "malformed folding whitespace")
  /\ (forall pe, NewTagValue ("a=b" +:+ CRLF +:+ "c") <> Err (ParseError_ pe))
  /\ NewDkimKey ("a=b" +:+ CRLF +:+ "c")
     = Ret (errorKey (mkParseError "malformed folding whitespace" 0))
  /\ NewTagValue "a=b;="
     = Err (ParseError_ (mkParseError "expecting alpha character in tag" 5)).
Proof.
  assert (E : NewTagValue ("a=b" +:+ CRLF +:+ "c")
              = Err (errors_New "malformed folding whitespace"))
    by (vm_compute; reflexivity).
  split; [vm_compute; reflexivity|]. split; [exact E|].
  split; [intros pe; by rewrite E|].
  split; vm_compute; reflexivity.
Qed.
